(** * Resume / job-description matcher: the scoring core

    A shallow embedding of the scoring core of the repository
    ([backend/ml/skill_extractor.py], [backend/ml/scorer.py],
    [backend/ml/similarity.py], [backend/ml/pipeline.py] and
    [backend/ml/constants.py]) together with the properties its
    specification states about it.

    Conventions of the embedding.

    - A Python [str] is a [string]; its characters are the code points
      U+0000 .. U+00FF (Rocq's 8-bit [ascii]).  [str.lower], [str.strip],
      and the regular-expression classes [\s] and [\d] are the ones Python
      uses on these code points.
    - A Python [float] is embedded twice.  In the first part it is an
      exact rational ([Q]), compared with [==]: that serves the
      properties of order and range, which rounding does not touch.  In
      [Module Binary64] it is a number of IEEE 754 binary64, an infinity
      or NaN, and every operation rounds as the hardware does: that
      serves the properties of the very values the code returns.
    - A Python [set] of strings is a [gset string]; [sorted] on it is the
      ascending list of its elements in code-point lexicographic order.
    - A raised exception is the [Err] case of a result type ([Raise] in
      [Module Binary64]). *)

From Stdlib Require Import Ascii String QArith Qminmax Qround Qabs.
From Stdlib Require Import Qpower Qreduction SpecFloat.
From stdpp Require Import base decidable list sorting strings gmap pretty.
From Stdlib Require Import Lia Lqa.

Local Open Scope string_scope.

(** ** Characters and the [str] methods the code uses *)

Module Text.

Definition code (c : ascii) : nat := nat_of_ascii c.

Definition in_range (lo hi : nat) (c : ascii) : bool :=
  (lo <=? code c)%nat && (code c <=? hi)%nat.

(** [a-z] *)
Definition is_az (c : ascii) : bool := in_range 97 122 c.

(** [\d] and [0-9]: the only decimal digits below U+0100. *)
Definition is_digit (c : ascii) : bool := in_range 48 57 c.

(** [str.isspace], which is also what [str.strip] removes and what the
    class [\s] matches: TAB..CR, FS..US, space, NEL and NBSP. *)
Definition is_space (c : ascii) : bool :=
  in_range 9 13 c || in_range 28 32 c
  || (code c =? 133)%nat || (code c =? 160)%nat.

(** [str.lower] on one code point: A-Z and the Latin-1 capitals
    U+00C0..U+00DE (the multiplication sign U+00D7 apart) move up by 32. *)
Definition lower_char (c : ascii) : ascii :=
  if in_range 65 90 c || (in_range 192 222 c && negb (code c =? 215)%nat)
  then ascii_of_nat (code c + 32)
  else c.

Fixpoint map (f : ascii -> ascii) (s : string) : string :=
  match s with
  | EmptyString => EmptyString
  | String c s' => String (f c) (map f s')
  end.

Fixpoint all (p : ascii -> bool) (s : string) : bool :=
  match s with
  | EmptyString => true
  | String c s' => p c && all p s'
  end.

Definition lower (s : string) : string := map lower_char s.

Definition is_empty (s : string) : bool :=
  match s with EmptyString => true | _ => false end.

Fixpoint lstrip (s : string) : string :=
  match s with
  | EmptyString => EmptyString
  | String c s' => if is_space c then lstrip s' else s
  end.

Fixpoint rstrip (s : string) : string :=
  match s with
  | EmptyString => EmptyString
  | String c s' =>
      match rstrip s' with
      | EmptyString => if is_space c then EmptyString else String c EmptyString
      | r => String c r
      end
  end.

(** [s.strip()] *)
Definition strip (s : string) : string := rstrip (lstrip s).

(** [not text or not text.strip()] *)
Definition is_blank (s : string) : bool :=
  is_empty s || is_empty (strip s).

(** [needle in hay] *)
Fixpoint contains (needle hay : string) : bool :=
  String.prefix needle hay ||
  match hay with
  | EmptyString => false
  | String _ hay' => contains needle hay'
  end.

(** [s.replace(old, new)] for one-character [old] and [new]. *)
Definition replace_char (old new : ascii) (s : string) : string :=
  map (fun c => if Ascii.eqb c old then new else c) s.

(** [s.split(sep)] for a one-character separator: the fragments between
    the separators, [k+1] of them when [sep] occurs [k] times. *)
Fixpoint split (sep : ascii) (s : string) : list string :=
  match s with
  | EmptyString => [EmptyString]
  | String c s' =>
      if Ascii.eqb c sep then EmptyString :: split sep s'
      else match split sep s' with
           | [] => [String c EmptyString]
           | frag :: frags => String c frag :: frags
           end
  end.

(** The order [sorted] uses on strings. *)
Definition le (s1 s2 : string) : Prop := String.leb s1 s2 = true.
Definition lt (s1 s2 : string) : Prop := String.ltb s1 s2 = true.

#[global] Instance le_dec : RelDecision le :=
  fun s1 s2 => decide (String.leb s1 s2 = true).

End Text.

(** ** [constants.py] *)

Definition SEMANTIC_SIMILARITY_WEIGHT : Q := 6 # 10.
Definition SKILL_MATCH_WEIGHT : Q := 3 # 10.
Definition EXPERIENCE_MATCH_WEIGHT : Q := 1 # 10.

(** The entries of the set literal [RECOGNIZED_SKILLS], as written. *)
Definition RECOGNIZED_SKILLS_entries : list string :=
    [ "python"; "java"; "c++"; "c"; "javascript"; "typescript";
      "go"; "golang"; "rust"; "scala"; "kotlin"; "bash";
      "sql"; "r"; "matlab";
      "machine learning"; "deep learning"; "artificial intelligence";
      "supervised learning"; "unsupervised learning";
      "reinforcement learning";
      "nlp"; "natural language processing";
      "computer vision"; "cv";
      "speech recognition"; "text classification";
      "information retrieval"; "recommendation systems";
      "pytorch"; "tensorflow"; "keras"; "scikit-learn";
      "xgboost"; "lightgbm"; "catboost";
      "huggingface"; "transformers";
      "opencv"; "spacy"; "nltk";
      "pandas"; "numpy"; "scipy";
      "data analysis"; "data science"; "data engineering";
      "feature engineering"; "data preprocessing";
      "data visualization";
      "power bi"; "tableau";
      "fastapi"; "django"; "flask";
      "node.js"; "express";
      "rest api"; "graphql";
      "microservices";
      "mysql"; "postgresql"; "sqlite";
      "mongodb"; "redis"; "elasticsearch";
      "cassandra"; "dynamodb";
      "docker"; "kubernetes"; "helm";
      "ci/cd"; "github actions";
      "mlops"; "model deployment";
      "model monitoring";
      "aws"; "gcp"; "azure";
      "ec2"; "s3"; "lambda";
      "cloud functions";
      "data structures"; "algorithms";
      "operating systems"; "computer networks";
      "dbms"; "system design";
      "distributed systems";
      "parallel computing";
      "object oriented programming"; "oop";
      "design patterns"; "clean architecture";
      "unit testing"; "integration testing";
      "debugging"; "performance optimization";
      "git"; "github"; "gitlab";
      "linux"; "unix";
      "jira"; "confluence";
      "docker compose";
      "transformer models"; "llms";
      "attention mechanism";
      "bert"; "gpt";
      "time series forecasting";
      "anomaly detection" ].

Definition RECOGNIZED_SKILLS : gset string :=
  list_to_set RECOGNIZED_SKILLS_entries.

(** ** [skill_extractor.py] *)

(** The class [[^a-z0-9+ ]] negated: what [re.sub] leaves in place. *)
Definition is_kept (c : ascii) : bool :=
  Text.is_az c || Text.is_digit c || Ascii.eqb c "+" || Ascii.eqb c " ".

(** [re.sub(r"[^a-z0-9+ ]", " ", text.lower())] *)
Definition _normalize_text (text : string) : string :=
  let lowercased := Text.lower text in
  Text.map (fun c => if is_kept c then c else " "%char) lowercased.

Definition extract_skills (text : string) : gset string :=
  if Text.is_blank text then ∅
  else
    let normalized_text := _normalize_text text in
    filter (fun skill => Text.contains skill normalized_text = true)
           RECOGNIZED_SKILLS.

(** [sorted(s)] for a set of strings. *)
Definition sorted (s : gset string) : list string :=
  merge_sort Text.le (elements s).

(** [len(s)] as a float. *)
Definition len_Q (s : gset string) : Q := inject_Z (Z.of_nat (size s)).

Definition match_skills (resume_text job_description_text : string)
  : list string * list string * Q :=
  let resume_skills := extract_skills resume_text in
  let jd_required_skills := extract_skills job_description_text in
  if decide (jd_required_skills = ∅) then ([], [], 1%Q)
  else
    let matched_skills := resume_skills ∩ jd_required_skills in
    let missing_skills := jd_required_skills ∖ resume_skills in
    (sorted matched_skills, sorted missing_skills,
     (len_Q matched_skills / len_Q jd_required_skills)%Q).

(** ** A small backtracking matcher for the [re] patterns of the code

    Python's [re] tries the alternatives of a pattern in order, greedy
    quantifiers first, and backtracks on failure; the matcher below does
    the same, with a continuation for the rest of the pattern.  It covers
    the constructs the code uses: character classes, concatenation, [?],
    [*], [+] and one capturing group. *)

Module Regex.

Inductive re : Type :=
| Eps                              (* the empty pattern *)
| Class (p : ascii -> bool)        (* one character of a class *)
| Seq (r1 r2 : re)                 (* r1 r2 *)
| Opt (r : re)                     (* r?, greedy *)
| Star (r : re)                    (* r*, greedy *)
| Group (r : re).                  (* ( r ), the capturing group *)

(** [r+] *)
Definition Plus (r : re) : re := Seq r (Star r).

(** One given character. *)
Definition Chr (c : ascii) : re := Class (Ascii.eqb c).

(** A literal word. *)
Fixpoint Lit (s : string) : re :=
  match s with
  | EmptyString => Eps
  | String c s' => Seq (Chr c) (Lit s')
  end.

(** The first [n] characters of [s]. *)
Fixpoint take (n : nat) (s : string) : string :=
  match n, s with
  | S n', String c s' => String c (take n' s')
  | _, _ => EmptyString
  end.

Section Run.
Context {A : Type}.

(** The iterations of [r*]: [body] matches [r] once.  Greedy: one more
    iteration is tried first, and it has to consume something; [n] bounds
    the number of iterations by the length of the text. *)
Fixpoint star_loop
    (body : string -> option string ->
            (string -> option string -> option A) -> option A)
    (n : nat) (s : string) (g : option string)
    (k : string -> option string -> option A) : option A :=
  match n with
  | O => k s g
  | S n' =>
      match body s g (fun s' g' =>
              if (String.length s' <? String.length s)%nat
              then star_loop body n' s' g' k else None) with
      | Some a => Some a
      | None => k s g
      end
  end.

(** [run r s g k]: match [r] at the start of [s], with [g] the text
    captured so far, then continue with [k] on what is left; the first
    success wins. *)
Fixpoint run (r : re) (s : string) (g : option string)
    (k : string -> option string -> option A) {struct r} : option A :=
  match r with
  | Eps => k s g
  | Class p =>
      match s with
      | String c s' => if p c then k s' g else None
      | EmptyString => None
      end
  | Seq r1 r2 => run r1 s g (fun s' g' => run r2 s' g' k)
  | Opt r1 =>
      match run r1 s g k with
      | Some a => Some a
      | None => k s g
      end
  | Star r1 => star_loop (run r1) (String.length s) s g k
  | Group r1 =>
      run r1 s g (fun s' _ =>
        k s' (Some (take (String.length s - String.length s') s)))
  end.
End Run.

(** [pattern.match] at the start of [s]: what is left after the match and
    the text of the group. *)
Definition match_at (r : re) (s : string) : option (string * option string) :=
  run r s None (fun s' g => Some (s', g)).

(** [re.findall(r, s)] for a pattern with one group that does not match
    the empty string: scan from the left; after a match, resume where it
    ended.  [skip] counts the characters of the last match still to pass. *)
Fixpoint findall_from (r : re) (skip : nat) (s : string) : list string :=
  match s with
  | EmptyString => []
  | String _ s' =>
      match skip with
      | S n => findall_from r n s'
      | O =>
          match match_at r s with
          | Some (rest, g) =>
              default EmptyString g
              :: findall_from r (String.length s' - String.length rest) s'
          | None => findall_from r 0 s'
          end
      end
  end.

Definition findall (r : re) (s : string) : list string := findall_from r 0 s.

(** The texts a pattern matches, as the documentation of [re] describes
    them, with the text of the group before and after the match. *)
Inductive matches : re -> string -> option string -> option string -> Prop :=
| matches_eps g : matches Eps EmptyString g g
| matches_class p c g :
    p c = true -> matches (Class p) (String c EmptyString) g g
| matches_seq r1 r2 w1 w2 g g1 g2 :
    matches r1 w1 g g1 -> matches r2 w2 g1 g2 ->
    matches (Seq r1 r2) (w1 +:+ w2) g g2
| matches_opt_some r w g g' : matches r w g g' -> matches (Opt r) w g g'
| matches_opt_none r g : matches (Opt r) EmptyString g g
| matches_star_nil r g : matches (Star r) EmptyString g g
| matches_star_cons r w1 w2 g g1 g2 :
    matches r w1 g g1 -> w1 <> EmptyString -> matches (Star r) w2 g1 g2 ->
    matches (Star r) (w1 +:+ w2) g g2
| matches_group r w g g' : matches r w g g' -> matches (Group r) w g (Some w).

End Regex.

(** ** [scorer.py] *)

Local Open Scope Q_scope.

(** Python's two-argument [min] and [max]: the first argument stays unless
    the second is strictly smaller (larger). *)
Definition py_min (a b : Q) : Q := if Qlt_le_dec b a then b else a.
Definition py_max (a b : Q) : Q := if Qlt_le_dec a b then b else a.

(** [max(l)] on a list; [None] stands for the [ValueError] on an empty
    list. *)
Definition py_max_list (l : list Q) : option Q :=
  match l with
  | [] => None
  | x :: l' => Some (fold_left py_max l' x)
  end.

(** The value of the decimal digits a text starts with (after [acc]), and
    the rest of the text. *)
Fixpoint digits_value (acc : Z) (s : string) : Z * string :=
  match s with
  | String c s' =>
      if Text.is_digit c
      then digits_value (10 * acc + Z.of_nat (Text.code c - 48))%Z s'
      else (acc, s)
  | EmptyString => (acc, s)
  end.

(** [float(s)] on the numerals that group 1 of the pattern matches,
    [\d+] or [\d+\.\d+]: the integer part plus the fraction digits over
    the power of ten of their number. *)
Definition float_of_numeral (s : string) : Q :=
  let '(ip, rest) := digits_value 0 s in
  match rest with
  | String "." frac =>
      let '(fp, rest') := digits_value 0 frac in
      let ndigits := (String.length frac - String.length rest')%nat in
      let scale := Z.to_pos (10 ^ Z.of_nat ndigits) in
      Qmake (ip * Zpos scale + fp)%Z scale
  | _ => inject_Z ip
  end.

(** [(\d+(?:\.\d+)?)\s*\+?\s*years?] *)
Definition YEARS_PATTERN : Regex.re :=
  let digits := Regex.Plus (Regex.Class Text.is_digit) in
  let spaces := Regex.Star (Regex.Class Text.is_space) in
  Regex.Seq
    (Regex.Group
       (Regex.Seq digits (Regex.Opt (Regex.Seq (Regex.Chr ".") digits))))
    (Regex.Seq spaces
       (Regex.Seq (Regex.Opt (Regex.Chr "+"))
          (Regex.Seq spaces
             (Regex.Seq (Regex.Lit "year") (Regex.Opt (Regex.Chr "s")))))).

(** [if not year_mentions: return 0.0] is the [None] case of the maximum. *)
Definition _extract_years_of_experience (text : string) : Q :=
  let text_lower := Text.lower text in
  let year_mentions := Regex.findall YEARS_PATTERN text_lower in
  let years_as_floats := List.map float_of_numeral year_mentions in
  match py_max_list years_as_floats with
  | None => 0
  | Some max_years => max_years
  end.

Definition compute_experience_score
    (resume_text job_description_text : string) : Q :=
  let candidate_years := _extract_years_of_experience resume_text in
  let required_years := _extract_years_of_experience job_description_text in
  if Qle_bool required_years 0 then 1
  else
    let experience_ratio := candidate_years / required_years in
    let normalized_score := py_min experience_ratio 1 in
    py_max 0 normalized_score.

(** The numbers [re.findall] reports for a text, as floats. *)
Definition year_mentions (text : string) : list Q :=
  List.map float_of_numeral (Regex.findall YEARS_PATTERN (Text.lower text)).

(** A numeral: digits, or digits, a dot and digits. *)
Definition is_numeral (s : string) : Prop :=
  exists ip,
    ip <> "" /\ Text.all Text.is_digit ip = true /\
    (s = ip \/
     exists fp,
       fp <> "" /\ Text.all Text.is_digit fp = true /\ s = ip +:+ "." +:+ fp).

(** [w] is a numeral followed by optional white space, an optional [+],
    optional white space and "year" or "years". *)
Definition year_mention (number w : string) : Prop :=
  is_numeral number /\
  exists ws1 plus ws2 tail,
    w = number +:+ ws1 +:+ plus +:+ ws2 +:+ "year" +:+ tail /\
    Text.all Text.is_space ws1 = true /\ (plus = "" \/ plus = "+") /\
    Text.all Text.is_space ws2 = true /\ (tail = "" \/ tail = "s").

(** What it is for [m] to be [max(l)], or [0.0] when [l] is empty. *)
Definition maximum_or_zero (l : list Q) (m : Q) : Prop :=
  (l = [] -> m = 0) /\
  (forall x, In x l -> x <= m) /\
  (l <> [] -> In m l).

(** *** The extraction as the specification words it

    "A number (integer or decimal) immediately followed by optional [+],
    optional whitespace, and the word year/years", that is
    [(\d+(?:\.\d+)?)\+?\s*years?]: no white space between the number and
    the [+].  Everything else is as in the code. *)
Definition YEARS_PATTERN_as_specified : Regex.re :=
  let digits := Regex.Plus (Regex.Class Text.is_digit) in
  let spaces := Regex.Star (Regex.Class Text.is_space) in
  Regex.Seq
    (Regex.Group
       (Regex.Seq digits (Regex.Opt (Regex.Seq (Regex.Chr ".") digits))))
    (Regex.Seq (Regex.Opt (Regex.Chr "+"))
       (Regex.Seq spaces
          (Regex.Seq (Regex.Lit "year") (Regex.Opt (Regex.Chr "s"))))).

Definition extract_years_as_specified (text : string) : Q :=
  let mentions :=
    Regex.findall YEARS_PATTERN_as_specified (Text.lower text) in
  match py_max_list (List.map float_of_numeral mentions) with
  | None => 0
  | Some max_years => max_years
  end.

Definition experience_score_as_specified
    (resume_text job_description_text : string) : Q :=
  let candidate_years := extract_years_as_specified resume_text in
  let required_years := extract_years_as_specified job_description_text in
  if Qle_bool required_years 0 then 1
  else py_max 0 (py_min (candidate_years / required_years) 1).

(** [round(x)] to an integer, ties to the even neighbour. *)
Definition round_half_even (x : Q) : Z :=
  let f := Qfloor x in
  match Qcompare (x - inject_Z f) (1 # 2) with
  | Lt => f
  | Gt => (f + 1)%Z
  | Eq => if Z.even f then f else (f + 1)%Z
  end.

(** [round(x, ndigits)] *)
Definition py_round (x : Q) (ndigits : nat) : Q :=
  let scale := inject_Z (10 ^ Z.of_nat ndigits) in
  inject_Z (round_half_even (x * scale)) / scale.

Definition compute_final_score
    (semantic_similarity skill_overlap experience_score : Q) : Q :=
  let weighted_semantic := SEMANTIC_SIMILARITY_WEIGHT * semantic_similarity in
  let weighted_skills := SKILL_MATCH_WEIGHT * skill_overlap in
  let weighted_experience := EXPERIENCE_MATCH_WEIGHT * experience_score in
  let raw_score := weighted_semantic + weighted_skills + weighted_experience in
  let fit_score_percentage := raw_score * 100 in
  py_round fit_score_percentage 2.

(** ** Exceptions *)

(** The [ValueError]s of the scoring core, by what their message reports. *)
Inductive ValueError : Type :=
| SourceEmpty
| TargetEmpty
| SourceNot2D (shape : list nat)
| TargetNot2D (shape : list nat)
| DimensionMismatch (source_dim target_dim : nat)
| ZeroSizeReduction.

Inductive result (A : Type) : Type :=
| Ok (a : A)
| Err (e : ValueError).
Arguments Ok {A} a.
Arguments Err {A} e.

#[global] Instance result_bind : MBind result :=
  fun A B f m => match m with Ok a => f a | Err e => Err e end.
#[global] Instance result_ret : MRet result := fun A a => Ok a.

(** ** [similarity.py] *)

(** A NumPy array of floats: its shape and its entries in row-major
    order. *)
Record ndarray : Type := { shape : list nat; data : list Q }.

(** [a.size] *)
Definition size_of (a : ndarray) : nat := fold_right Nat.mul 1%nat (shape a).

(** [a.ndim] *)
Definition ndim (a : ndarray) : nat := length (shape a).

(** [a.shape[1]] of an array known to have two axes. *)
Definition shape1 (a : ndarray) : nat := nth 1 (shape a) 0%nat.

Fixpoint chunks (n width : nat) (l : list Q) : list (list Q) :=
  match n with
  | O => []
  | S n' => firstn width l :: chunks n' width (skipn width l)
  end.

(** The rows of a two-dimensional array. *)
Definition rows (a : ndarray) : list (list Q) :=
  match shape a with
  | [n; d] => chunks n d (data a)
  | _ => []
  end.

Definition _validate_embeddings
    (source_embeddings target_embeddings : ndarray) : result unit :=
  if (size_of source_embeddings =? 0)%nat then Err SourceEmpty
  else if (size_of target_embeddings =? 0)%nat then Err TargetEmpty
  else if negb (ndim source_embeddings =? 2)%nat
       then Err (SourceNot2D (shape source_embeddings))
  else if negb (ndim target_embeddings =? 2)%nat
       then Err (TargetNot2D (shape target_embeddings))
  else
    let source_dim := shape1 source_embeddings in
    let target_dim := shape1 target_embeddings in
    if negb (source_dim =? target_dim)%nat
    then Err (DimensionMismatch source_dim target_dim)
    else Ok tt.

(** [row.max()]: NumPy refuses to reduce a row without entries. *)
Definition row_max (row : list Q) : result Q :=
  match row with
  | [] => Err ZeroSizeReduction
  | x :: row' => Ok (fold_left Qmax row' x)
  end.

Definition sum_Q (l : list Q) : Q := fold_right Qplus 0 l.

(** [v.mean()] *)
Definition mean (l : list Q) : Q := sum_Q l / inject_Z (Z.of_nat (length l)).

(** [np.clip(x, lo, hi)] *)
Definition clip (x lo hi : Q) : Q := Qmin (Qmax x lo) hi.

(** The checks of [_validate_embeddings] all pass. *)
Definition valid_embeddings (source target : ndarray) : Prop :=
  size_of source <> 0%nat /\ size_of target <> 0%nat /\
  ndim source = 2%nat /\ ndim target = 2%nat /\
  shape1 source = shape1 target.

(** [m] is the largest entry of [l]. *)
Definition is_maximum (m : Q) (l : list Q) : Prop :=
  (exists y, In y l /\ m == y) /\ (forall y, In y l -> y <= m).

Section Similarity.
(** scikit-learn's cosine similarity of two vectors; the matrix
    [cosine_similarity(X, Y)] holds it for every row of [X] against
    every row of [Y]. *)
Variable cosine : list Q -> list Q -> Q.

Definition cosine_similarity (X Y : ndarray) : list (list Q) :=
  List.map (fun x => List.map (cosine x) (rows Y)) (rows X).

Definition average_max_cosine_similarity
    (source_embeddings target_embeddings : ndarray) : result Q :=
  _ ← _validate_embeddings source_embeddings target_embeddings;
  let similarity_matrix :=
    cosine_similarity source_embeddings target_embeddings in
  max_similarities ← mapM row_max similarity_matrix;
  let average_similarity := mean max_similarities in
  Ok (clip average_similarity 0 1).
End Similarity.

(** ** [pipeline.py] *)

Definition _tokenize_into_sentences (text : string) : list string :=
  if Text.is_blank text then [EmptyString]
  else
    let sentences :=
      List.map Text.strip
        (List.filter (fun s => negb (Text.is_empty (Text.strip s)))
           (Text.split "." (Text.replace_char "010" " " text))) in
    match sentences with
    | [] => [text]
    | _ => sentences
    end.

(** The fragments of a text that are not blank. *)
Definition kept_fragments (text : string) : list string :=
  List.filter (fun s => negb (Text.is_empty (Text.strip s)))
    (Text.split "." (Text.replace_char "010" " " text)).

(** [f"{x:.2f}"] *)
Definition format_2f (x : Q) : string :=
  let n := Z.abs (round_half_even (x * 100)) in
  let cents := (n mod 100)%Z in
  (if Qlt_le_dec x 0 then "-" else "")
  +:+ pretty (n / 100)%Z +:+ "."
  +:+ (if (cents <? 10)%Z then "0" else "") +:+ pretty cents.

(** [", ".join(l)] *)
Definition join_comma (l : list string) : string := String.concat ", " l.

Definition _generate_explanation (semantic_similarity : Q)
    (matched_skills missing_skills : list string) (experience_score : Q)
  : string :=
  let num_matched := length matched_skills in
  let missing_skills_text :=
    match missing_skills with
    | [] => "None"
    | _ => join_comma missing_skills
    end in
  "Semantic match score is " +:+ format_2f semantic_similarity +:+ ". "
  +:+ "Matched " +:+ pretty num_matched +:+ " required skill"
  +:+ (if (num_matched =? 1)%nat then "" else "s") +:+ ". "
  +:+ "Experience alignment score is " +:+ format_2f experience_score +:+ ". "
  +:+ "Missing skills include: " +:+ missing_skills_text +:+ ".".

Record EvaluationResult : Type := {
  fit_score : Q;
  semantic_similarity_score : Q;
  matched_skills : list string;
  missing_skills : list string;
  experience_match_score : Q;
  explanation : string
}.

Section Pipeline.
(** [EmbeddingModel.encode], the sentence-transformer model, and the
    cosine similarity of scikit-learn: both are outside the repository. *)
Variable encode : list string -> ndarray.
Variable cosine : list Q -> list Q -> Q.

Definition evaluate (resume_text job_description_text : string)
  : result EvaluationResult :=
  let resume_sentences := _tokenize_into_sentences resume_text in
  let jd_sentences := _tokenize_into_sentences job_description_text in
  let resume_embeddings := encode resume_sentences in
  let jd_embeddings := encode jd_sentences in
  semantic_similarity ←
    average_max_cosine_similarity cosine jd_embeddings resume_embeddings;
  let '(matched, missing, skill_overlap_ratio) :=
    match_skills resume_text job_description_text in
  let experience_score :=
    compute_experience_score resume_text job_description_text in
  let final_fit_score :=
    compute_final_score semantic_similarity skill_overlap_ratio
      experience_score in
  let explanation :=
    _generate_explanation semantic_similarity matched missing
      experience_score in
  Ok {| fit_score := final_fit_score;
        semantic_similarity_score := py_round semantic_similarity 3;
        matched_skills := matched;
        missing_skills := missing;
        experience_match_score := py_round experience_score 3;
        explanation := explanation |}.
End Pipeline.

(** ** Stand-ins for the model and the kernel, for the examples *)

(** The dot product, which is the cosine similarity of unit vectors. *)
Definition dot (u v : list Q) : Q :=
  sum_Q (List.map (fun p => fst p * snd p) (List.combine u v)).

(** An embedder that keeps the contract: one row [1.0] per sentence. *)
Definition constant_encode (batch : list string) : ndarray :=
  {| shape := [length batch; 1%nat]; data := List.map (fun _ => 1) batch |}.

(** * The program in binary64 arithmetic

    Above, a Python [float] is an exact rational: that serves the claims
    about order and ranges.  What the code returns to the last bit, and
    what it does with an infinity or NaN, depends on IEEE 754 binary64,
    the arithmetic of Python's [float].  This module embeds the same
    functions of [scorer.py], [similarity.py] and [pipeline.py] in that
    arithmetic: every operation gives the exact result rounded to the
    nearest binary64 number, ties to the even significand, and overflows
    to an infinity.  The sign of a zero is not kept: no comparison tells
    [-0.0] from [0.0].  NumPy's float scalars are taken as Python floats. *)

Module Binary64.

(** ** Python's [float] *)

Inductive float : Type :=
| Finite (value : Q)
| Infinity (negative : bool)
| NaN.

(** [2 ** e] *)
Definition pow2 (e : Z) : Q := Qpower 2 e.

(** The binade of a positive number: [pow2 e <= x < pow2 (e + 1)]. *)
Definition ilog2 (x : Q) : Z :=
  let k := (Z.log2 (Qnum x) - Z.log2 (Zpos (Qden x)))%Z in
  if Qle_bool (pow2 k) x then k else (k - 1)%Z.

(** The spacing of the binary64 numbers at [x]: 53 significant bits, and
    the spacing [2 ** -1074] of the subnormal numbers at least. *)
Definition ulp (x : Q) : Q := pow2 (Z.max (ilog2 (Qabs x) - 52) (-1074)).

(** [x] rounded to a multiple of the spacing at [x], ties to even. *)
Definition nearest (x : Q) : Q :=
  match Qnum x with
  | Z0 => 0
  | _ => inject_Z (round_half_even (x / ulp x)) * ulp x
  end.

(** Rounding to the nearest binary64 number; what is rounded to
    [2 ** 1024] or beyond overflows. *)
Definition round64 (x : Q) : float :=
  let r := nearest (Qred x) in
  if Qle_bool (pow2 1024) (Qabs r)
  then Infinity (negb (Qle_bool 0 r))
  else Finite (Qred r).

(** [x == 0.0] *)
Definition is_zero (x : float) : bool :=
  match x with Finite q => Qeq_bool q 0 | _ => false end.

(** [x < 0.0], for the sign of an infinite product or quotient. *)
Definition is_negative (x : float) : bool :=
  match x with
  | Finite q => negb (Qle_bool 0 q)
  | Infinity negative => negative
  | NaN => false
  end.

(** [x < y] *)
Definition flt (x y : float) : bool :=
  match x, y with
  | Finite a, Finite b => negb (Qle_bool b a)
  | Finite _, Infinity negative => negb negative
  | Infinity negative, Finite _ => negative
  | Infinity a, Infinity b => a && negb b
  | _, _ => false
  end.

(** [x <= y] *)
Definition fle (x y : float) : bool :=
  match x, y with
  | Finite a, Finite b => Qle_bool a b
  | Finite _, Infinity negative => negb negative
  | Infinity negative, Finite _ => negative
  | Infinity a, Infinity b => a || negb b
  | _, _ => false
  end.

(** [x + y] *)
Definition fadd (x y : float) : float :=
  match x, y with
  | Finite a, Finite b => round64 (a + b)
  | Finite _, Infinity negative => Infinity negative
  | Infinity negative, Finite _ => Infinity negative
  | Infinity a, Infinity b => if Bool.eqb a b then Infinity a else NaN
  | _, _ => NaN
  end.

(** [x * y] *)
Definition fmul (x y : float) : float :=
  match x, y with
  | Finite a, Finite b => round64 (a * b)
  | Finite _, Infinity _ | Infinity _, Finite _ | Infinity _, Infinity _ =>
      if is_zero x || is_zero y then NaN
      else Infinity (xorb (is_negative x) (is_negative y))
  | _, _ => NaN
  end.

(** What the scorer and the pipeline can raise: the [ValueError]s of
    [_validate_embeddings], the [ValueError] of scikit-learn for an array
    with NaN or an infinity, and [ZeroDivisionError]. *)
Inductive exception : Type :=
| Invalid (reason : ValueError)
| NotFinite
| ZeroDivisionError.

Inductive outcome (A : Type) : Type :=
| Return (a : A)
| Raise (e : exception).
Arguments Return {A} a.
Arguments Raise {A} e.

#[global] Instance outcome_bind : MBind outcome :=
  fun A B f m => match m with Return a => f a | Raise e => Raise e end.
#[global] Instance outcome_ret : MRet outcome := fun A a => Return a.

(** [x / y]: Python raises [ZeroDivisionError] for a zero divisor,
    whatever the dividend. *)
Definition fdiv (x y : float) : outcome float :=
  if is_zero y then Raise ZeroDivisionError
  else
    Return
      match x, y with
      | Finite a, Finite b => round64 (a / b)
      | Finite _, Infinity _ => Finite 0
      | Infinity _, Finite _ =>
          Infinity (xorb (is_negative x) (is_negative y))
      | _, _ => NaN
      end.

(** [min(a, b)] and [max(a, b)]: the first argument stays unless the
    second is smaller (larger); so a NaN in first place stays and a NaN in
    second place is dropped. *)
Definition py_min (a b : float) : float := if flt b a then b else a.
Definition py_max (a b : float) : float := if flt a b then b else a.

(** [max(l)] *)
Definition py_max_list (l : list float) : option float :=
  match l with
  | [] => None
  | x :: l' => Some (fold_left py_max l' x)
  end.

(** [round(x, ndigits)]: the exact value of [x] rounded to [ndigits]
    decimals, ties to even, and the float nearest to that; an infinity
    and NaN round to themselves. *)
Definition py_round (x : float) (ndigits : nat) : float :=
  match x with
  | Finite q =>
      let scale := inject_Z (10 ^ Z.of_nat ndigits) in
      round64 (inject_Z (round_half_even (q * scale)) / scale)
  | _ => x
  end.

(** [f"{x:.2f}"] *)
Definition format_2f (x : float) : string :=
  match x with
  | Finite q => format_2f q
  | Infinity negative => if negative then "-inf" else "inf"
  | NaN => "nan"
  end.

(** ** [constants.py] *)

Definition SEMANTIC_SIMILARITY_WEIGHT : float := round64 (6 # 10).
Definition SKILL_MATCH_WEIGHT : float := round64 (3 # 10).
Definition EXPERIENCE_MATCH_WEIGHT : float := round64 (1 # 10).

(** ** [scorer.py] *)

(** The number a numeral [\d+] or [\d+\.\d+] writes. *)
Definition decimal_value (s : string) : Q := float_of_numeral s.

(** [float(s)]: the float nearest to that number. *)
Definition float_of_numeral (s : string) : float :=
  round64 (decimal_value s).

Definition _extract_years_of_experience (text : string) : float :=
  let text_lower := Text.lower text in
  let year_mentions := Regex.findall YEARS_PATTERN text_lower in
  let years_as_floats := List.map float_of_numeral year_mentions in
  match py_max_list years_as_floats with
  | None => Finite 0
  | Some max_years => max_years
  end.

Definition compute_experience_score
    (resume_text job_description_text : string) : outcome float :=
  let candidate_years := _extract_years_of_experience resume_text in
  let required_years := _extract_years_of_experience job_description_text in
  if fle required_years (Finite 0) then Return (Finite 1)
  else
    experience_ratio ← fdiv candidate_years required_years;
    let normalized_score := py_min experience_ratio (Finite 1) in
    Return (py_max (Finite 0) normalized_score).

Definition compute_final_score
    (semantic_similarity skill_overlap experience_score : float) : float :=
  let weighted_semantic :=
    fmul SEMANTIC_SIMILARITY_WEIGHT semantic_similarity in
  let weighted_skills := fmul SKILL_MATCH_WEIGHT skill_overlap in
  let weighted_experience :=
    fmul EXPERIENCE_MATCH_WEIGHT experience_score in
  let raw_score :=
    fadd (fadd weighted_semantic weighted_skills) weighted_experience in
  let fit_score_percentage := fmul raw_score (Finite 100) in
  py_round fit_score_percentage 2.

(** The numbers [re.findall] reports for a text, as floats. *)
Definition year_mentions (text : string) : list float :=
  List.map float_of_numeral (Regex.findall YEARS_PATTERN (Text.lower text)).

(** What it is for [m] to be [max(l)], or [0.0] when [l] is empty. *)
Definition maximum_or_zero (l : list float) (m : float) : Prop :=
  (l = [] -> m = Finite 0) /\
  (forall x, In x l -> fle x m = true) /\
  (l <> [] -> In m l).

Definition is_nan (x : float) : bool :=
  match x with NaN => true | _ => false end.

(** *** The extraction and the final score as the specification words
    them *)

Definition extract_years_as_specified (text : string) : float :=
  let mentions :=
    Regex.findall YEARS_PATTERN_as_specified (Text.lower text) in
  match py_max_list (List.map float_of_numeral mentions) with
  | None => Finite 0
  | Some max_years => max_years
  end.

Definition experience_score_as_specified
    (resume_text job_description_text : string) : outcome float :=
  let candidate_years := extract_years_as_specified resume_text in
  let required_years := extract_years_as_specified job_description_text in
  if fle required_years (Finite 0) then Return (Finite 1)
  else
    experience_ratio ← fdiv candidate_years required_years;
    Return (py_max (Finite 0) (py_min experience_ratio (Finite 1))).


(** ** [similarity.py] *)

(** A NumPy array of floats: its shape and its entries in row-major
    order; an entry may be NaN or an infinity. *)
Record ndarray64 : Type := { shape64 : list nat; data64 : list float }.

Definition number_of (x : float) : option Q :=
  match x with Finite q => Some q | _ => None end.

(** The same array with its entries as numbers, when none of them is NaN
    or an infinity. *)
Definition finite_part (a : ndarray64) : option ndarray :=
  match mapM number_of (data64 a) with
  | Some numbers => Some {| shape := shape64 a; data := numbers |}
  | None => None
  end.

(** [a.size], [a.ndim] and [a.shape[1]] *)
Definition size64 (a : ndarray64) : nat :=
  fold_right Nat.mul 1%nat (shape64 a).
Definition ndim64 (a : ndarray64) : nat := length (shape64 a).
Definition shape64_1 (a : ndarray64) : nat := nth 1 (shape64 a) 0%nat.

Definition _validate_embeddings
    (source_embeddings target_embeddings : ndarray64) : outcome unit :=
  if (size64 source_embeddings =? 0)%nat then Raise (Invalid SourceEmpty)
  else if (size64 target_embeddings =? 0)%nat then Raise (Invalid TargetEmpty)
  else if negb (ndim64 source_embeddings =? 2)%nat
       then Raise (Invalid (SourceNot2D (shape64 source_embeddings)))
  else if negb (ndim64 target_embeddings =? 2)%nat
       then Raise (Invalid (TargetNot2D (shape64 target_embeddings)))
  else
    let source_dim := shape64_1 source_embeddings in
    let target_dim := shape64_1 target_embeddings in
    if negb (source_dim =? target_dim)%nat
    then Raise (Invalid (DimensionMismatch source_dim target_dim))
    else Return tt.

(** [np.clip(x, lo, hi)]; NaN stays NaN. *)
Definition np_clip (x lo hi : float) : float :=
  match x with
  | NaN => NaN
  | _ => if flt x lo then lo else if flt hi x then hi else x
  end.



Section Similarity.
(** scikit-learn's cosine similarity of two rows of numbers. *)
Variable cosine : list Q -> list Q -> Q.

(** scikit-learn's [cosine_similarity(X, Y)]: its input check raises a
    [ValueError] for an array that holds NaN or an infinity; otherwise the
    matrix holds the similarity of every row of [X] with every row of
    [Y]. *)
Definition cosine_similarity (X Y : ndarray64) : outcome (list (list Q)) :=
  match finite_part X, finite_part Y with
  | Some X', Some Y' =>
      Return (List.map (fun x => List.map (cosine x) (rows Y')) (rows X'))
  | _, _ => Raise NotFinite
  end.

(** The array arithmetic of NumPy is carried out on the numbers
    themselves; [float(...)] makes the mean a Python float. *)
Definition average_max_cosine_similarity
    (source_embeddings target_embeddings : ndarray64) : outcome float :=
  _ ← _validate_embeddings source_embeddings target_embeddings;
  similarity_matrix ← cosine_similarity source_embeddings target_embeddings;
  match mapM row_max similarity_matrix with
  | Err e => Raise (Invalid e)
  | Ok max_similarities =>
      let average_similarity := round64 (mean max_similarities) in
      Return (np_clip average_similarity (Finite 0) (Finite 1))
  end.
End Similarity.

(** ** [pipeline.py] *)

Definition _generate_explanation (semantic_similarity : float)
    (matched_skills missing_skills : list string) (experience_score : float)
  : string :=
  let num_matched := length matched_skills in
  let missing_skills_text :=
    match missing_skills with
    | [] => "None"
    | _ => join_comma missing_skills
    end in
  "Semantic match score is " +:+ format_2f semantic_similarity +:+ ". "
  +:+ "Matched " +:+ pretty num_matched +:+ " required skill"
  +:+ (if (num_matched =? 1)%nat then "" else "s") +:+ ". "
  +:+ "Experience alignment score is " +:+ format_2f experience_score +:+ ". "
  +:+ "Missing skills include: " +:+ missing_skills_text +:+ ".".

Record EvaluationResult64 : Type := {
  fit_score64 : float;
  semantic_similarity_score64 : float;
  matched_skills64 : list string;
  missing_skills64 : list string;
  experience_match_score64 : float;
  explanation64 : string
}.

Section Pipeline.
Variable encode : list string -> ndarray64.
Variable cosine : list Q -> list Q -> Q.

Definition evaluate (resume_text job_description_text : string)
  : outcome EvaluationResult64 :=
  let resume_sentences := _tokenize_into_sentences resume_text in
  let jd_sentences := _tokenize_into_sentences job_description_text in
  let resume_embeddings := encode resume_sentences in
  let jd_embeddings := encode jd_sentences in
  semantic_similarity ←
    average_max_cosine_similarity cosine jd_embeddings resume_embeddings;
  let '(matched, missing, skill_overlap_ratio) :=
    match_skills resume_text job_description_text in
  experience_score ←
    compute_experience_score resume_text job_description_text;
  let final_fit_score :=
    compute_final_score semantic_similarity (round64 skill_overlap_ratio)
      experience_score in
  let explanation :=
    _generate_explanation semantic_similarity matched missing
      experience_score in
  Return {| fit_score64 := final_fit_score;
            semantic_similarity_score64 := py_round semantic_similarity 3;
            matched_skills64 := matched;
            missing_skills64 := missing;
            experience_match_score64 := py_round experience_score 3;
            explanation64 := explanation |}.
End Pipeline.

End Binary64.

(** *** Agreement with the Standard Library's IEEE 754 *)

(** The float that a [spec_float] of the Standard Library stands for. *)
Definition of_spec (x : spec_float) : Binary64.float :=
  match x with
  | S754_zero _ => Binary64.Finite 0
  | S754_infinity negative => Binary64.Infinity negative
  | S754_nan => Binary64.NaN
  | S754_finite negative m e =>
      Binary64.Finite
        (Qred ((if negative then -1 else 1)
               * inject_Z (Zpos m) * Binary64.pow2 e))
  end.

(** A year count of 401 digits. *)
Definition huge_years : string :=
  "1" +:+ String.concat "" (List.repeat "0" 400) +:+ " years".

(** * Properties *)

(** ** Strings: order, stripping, containment *)

Module TextFacts.
Import Text.

Lemma ascii_compare_refl (c : ascii) : Ascii.compare c c = Eq.
Proof. unfold Ascii.compare. apply N.compare_refl. Qed.

Lemma ascii_compare_lt_trans (a b c : ascii) :
  Ascii.compare a b = Lt -> Ascii.compare b c = Lt -> Ascii.compare a c = Lt.
Proof.
  unfold Ascii.compare. rewrite !N.compare_lt_iff. apply N.lt_trans.
Qed.

Lemma compare_lt_trans (s1 s2 s3 : string) :
  String.compare s1 s2 = Lt -> String.compare s2 s3 = Lt ->
  String.compare s1 s3 = Lt.
Proof.
  revert s2 s3.
  induction s1 as [|a s1 IH]; intros [|b s2] [|c s3]; simpl;
    try discriminate; try reflexivity.
  destruct (Ascii.compare a b) eqn:Hab; try discriminate;
    destruct (Ascii.compare b c) eqn:Hbc; try discriminate; intros H12 H23.
  - apply Ascii.compare_eq_iff in Hab, Hbc. subst.
    rewrite ascii_compare_refl. eauto.
  - apply Ascii.compare_eq_iff in Hab. subst. now rewrite Hbc.
  - apply Ascii.compare_eq_iff in Hbc. subst. now rewrite Hab.
  - now rewrite (ascii_compare_lt_trans a b c).
Qed.

Lemma compare_refl (s : string) : String.compare s s = Eq.
Proof.
  induction s as [|c s IH]; simpl; [done|]. now rewrite ascii_compare_refl.
Qed.

Lemma le_lt_or_eq (s1 s2 : string) : le s1 s2 <-> lt s1 s2 \/ s1 = s2.
Proof.
  unfold le, lt, String.leb, String.ltb.
  destruct (String.compare s1 s2) eqn:H; split; intros Hle;
    try discriminate; auto.
  - right. now apply String.compare_eq_iff.
  - destruct Hle as [Hlt | ->]; [discriminate|].
    pose proof (compare_refl s2). congruence.
Qed.

Lemma lt_trans (s1 s2 s3 : string) : lt s1 s2 -> lt s2 s3 -> lt s1 s3.
Proof.
  unfold lt, String.ltb. intros H12 H23.
  destruct (String.compare s1 s2) eqn:E12; try discriminate.
  destruct (String.compare s2 s3) eqn:E23; try discriminate.
  now rewrite (compare_lt_trans s1 s2 s3).
Qed.

#[global] Instance le_transitive : Transitive le.
Proof.
  intros s1 s2 s3. rewrite !le_lt_or_eq.
  intros [H12 | ->] [H23 | ->]; eauto using lt_trans.
Qed.

#[global] Instance le_total : Total le.
Proof. intros s1 s2. apply String.leb_total. Qed.

#[global] Instance le_antisymm : AntiSymm (=) le.
Proof. intros s1 s2. apply String.leb_antisym. Qed.

(** A list sorted by [le] without repetition is strictly ascending. *)
Lemma StronglySorted_le_lt (l : list string) :
  StronglySorted le l -> NoDup l -> StronglySorted lt l.
Proof.
  induction 1 as [|x l Hs IH Hall]; intros Hnd; constructor.
  - apply IH. now apply NoDup_cons_1_2 in Hnd.
  - apply NoDup_cons_1_1 in Hnd.
    rewrite Forall_forall in *. intros y Hy.
    destruct (proj1 (le_lt_or_eq x y) (Hall y Hy)) as [Hlt | ->]; [done|].
    now destruct Hnd.
Qed.

(** *** Predicates on all characters *)

Lemma all_map (p : ascii -> bool) (f : ascii -> ascii) (s : string) :
  (forall c, p (f c) = true) -> all p (map f s) = true.
Proof. intros Hf. induction s as [|c s IH]; simpl; [done|]. now rewrite Hf. Qed.

Lemma all_map_impl (p q : ascii -> bool) (f : ascii -> ascii) (s : string) :
  (forall c, p c = true -> q (f c) = true) ->
  all p s = true -> all q (map f s) = true.
Proof.
  intros Hf. induction s as [|c s IH]; simpl; [done|].
  rewrite !andb_true_iff. intros [Hc Hs]. auto.
Qed.

Lemma prefix_all (p : ascii -> bool) (needle hay : string) :
  String.prefix needle hay = true -> all p hay = true -> all p needle = true.
Proof.
  revert hay. induction needle as [|c n IH]; intros [|d h]; simpl;
    try done.
  destruct (ascii_dec c d) as [->|]; [|done].
  rewrite !andb_true_iff. intros Hpre [Hd Hh]. eauto.
Qed.

(** Every character of a substring is a character of the text. *)
Lemma contains_all (p : ascii -> bool) (needle hay : string) :
  contains needle hay = true -> all p hay = true -> all p needle = true.
Proof.
  induction hay as [|d h IH]; simpl.
  - rewrite orb_false_r. intros Hpre _. now apply (prefix_all p needle "").
  - rewrite orb_true_iff, andb_true_iff. intros [Hpre | Hin] [Hd Hh].
    + apply (prefix_all p needle (String d h)); [done|]. simpl. now rewrite Hd.
    + auto.
Qed.

Lemma prefix_map (f : ascii -> ascii) (needle hay : string) :
  String.prefix needle hay = true ->
  String.prefix (map f needle) (map f hay) = true.
Proof.
  revert hay. induction needle as [|c n IH]; intros [|d h]; simpl; try done.
  destruct (ascii_dec c d) as [->|]; [|done].
  intros Hpre. destruct (ascii_dec (f d) (f d)); [auto|done].
Qed.

(** A character-wise rewriting keeps substrings in place. *)
Lemma contains_map (f : ascii -> ascii) (needle hay : string) :
  contains needle hay = true -> contains (map f needle) (map f hay) = true.
Proof.
  induction hay as [|d h IH]; simpl.
  - rewrite !orb_false_r. apply (prefix_map f needle "").
  - rewrite !orb_true_iff. intros [Hpre | Hin]; [left|right; auto].
    now apply (prefix_map f needle (String d h)).
Qed.

(** *** Stripping *)

Lemma rstrip_empty_iff (s : string) :
  is_empty (rstrip s) = true <-> all is_space s = true.
Proof.
  induction s as [|c s IH]; simpl; [done|].
  destruct (rstrip s) eqn:Hr; simpl in *.
  - destruct (is_space c); simpl.
    + now rewrite <- IH.
    + split; discriminate.
  - rewrite andb_true_iff. split; [discriminate|].
    intros [_ Hs]. apply IH in Hs. discriminate.
Qed.

Lemma all_lstrip (p : ascii -> bool) (s : string) :
  all p s = true -> all p (lstrip s) = true.
Proof.
  induction s as [|c s IH]; simpl; [done|].
  rewrite andb_true_iff. intros [Hc Hs].
  destruct (is_space c); simpl; [auto|]. now rewrite Hc.
Qed.

Lemma lstrip_all_space (s : string) :
  all is_space (lstrip s) = true -> all is_space s = true.
Proof.
  induction s as [|c s IH]; simpl; [done|].
  destruct (is_space c) eqn:Hc; simpl; [done|]. now rewrite Hc.
Qed.

(** [s.strip()] is empty exactly when [s] holds white space only. *)
Lemma strip_empty_iff (s : string) :
  is_empty (strip s) = true <-> all is_space s = true.
Proof.
  unfold strip. rewrite rstrip_empty_iff. split.
  - apply lstrip_all_space.
  - apply all_lstrip.
Qed.

Lemma is_blank_iff (s : string) :
  is_blank s = true <-> all is_space s = true.
Proof.
  unfold is_blank. rewrite orb_true_iff, strip_empty_iff.
  split; [|auto]. intros [He | Hs]; [|done]. now destruct s.
Qed.

Lemma lower_char_space (c : ascii) :
  is_space c = true -> is_space (lower_char c) = true.
Proof.
  destruct c as [[] [] [] [] [] [] [] []]; vm_compute; intros H;
    first [ reflexivity | discriminate H ].
Qed.

End TextFacts.

(** ** Skill extraction and matching *)

Module SkillFacts.
Import Text TextFacts.

Lemma normalize_kept (text : string) :
  all is_kept (_normalize_text text) = true.
Proof.
  unfold _normalize_text. apply all_map. intros c.
  destruct (is_kept c) eqn:Hc; [done|reflexivity].
Qed.

Lemma elem_of_extract_skills (text skill : string) :
  skill ∈ extract_skills text <->
  is_blank text = false /\
  contains skill (_normalize_text text) = true /\
  skill ∈ RECOGNIZED_SKILLS.
Proof.
  unfold extract_skills. destruct (is_blank text).
  - split; [intros H%not_elem_of_empty; done | intros [? _]; done].
  - rewrite elem_of_filter. tauto.
Qed.

(** A detected skill is made of lowercase letters, digits, [+] and
    spaces only. *)
Lemma extract_skills_kept (text skill : string) :
  skill ∈ extract_skills text -> all is_kept skill = true.
Proof.
  rewrite elem_of_extract_skills. intros (_ & Hin & _).
  eapply contains_all; [exact Hin|]. apply normalize_kept.
Qed.

Lemma elem_of_vocabulary (x : string) :
  existsb (String.eqb x) RECOGNIZED_SKILLS_entries = true ->
  x ∈ RECOGNIZED_SKILLS.
Proof.
  unfold RECOGNIZED_SKILLS. rewrite existsb_exists, elem_of_list_to_set.
  intros (y & Hy & ->%String.eqb_eq). now apply list_elem_of_In.
Qed.

Lemma extract_skills_vocabulary (text : string) :
  extract_skills text ⊆ RECOGNIZED_SKILLS.
Proof. intros skill. rewrite elem_of_extract_skills. tauto. Qed.

Lemma extract_skills_empty_text : extract_skills "" = ∅.
Proof. reflexivity. Qed.

(** *** [sorted] *)

Lemma sorted_Permutation (X : gset string) : sorted X ≡ₚ elements X.
Proof. apply merge_sort_Permutation. Qed.

Lemma sorted_ascending (X : gset string) : StronglySorted Text.lt (sorted X).
Proof.
  apply StronglySorted_le_lt.
  - apply StronglySorted_merge_sort; apply _.
  - rewrite sorted_Permutation. apply NoDup_elements.
Qed.

Lemma elem_of_sorted (X : gset string) (x : string) : x ∈ sorted X <-> x ∈ X.
Proof. rewrite sorted_Permutation. apply elem_of_elements. Qed.

Lemma list_to_set_sorted (X : gset string) : list_to_set (sorted X) = X.
Proof.
  apply set_eq. intros x. now rewrite elem_of_list_to_set, elem_of_sorted.
Qed.

Lemma length_sorted (X : gset string) : length (sorted X) = size X.
Proof. now rewrite sorted_Permutation. Qed.

End SkillFacts.

(** C1. [match_skills] returns the ascending lists of the skills the two
    texts share and of the required skills the resume lacks, with the
    share of required skills that matched; together the two lists make up
    the required skills and they have no skill in common.  A job
    description without any vocabulary skill, the empty one in particular,
    gives [([], [], 1.0)] whatever the resume. *)
Theorem match_skills_spec (resume_text jd_text : string) :
  let resume_skills := extract_skills resume_text in
  let jd_skills := extract_skills jd_text in
  let '(matched, missing, overlap_ratio) :=
    match_skills resume_text jd_text in
  (jd_skills ≠ ∅ ->
     StronglySorted Text.lt matched /\
     (list_to_set matched : gset string) = resume_skills ∩ jd_skills /\
     StronglySorted Text.lt missing /\
     (list_to_set missing : gset string) = jd_skills ∖ resume_skills /\
     (list_to_set matched ∪ list_to_set missing : gset string) = jd_skills /\
     (list_to_set matched ∩ list_to_set missing : gset string) = ∅ /\
     overlap_ratio ==
       inject_Z (Z.of_nat (length matched))
       / inject_Z (Z.of_nat (size jd_skills)))
  /\ (jd_skills = ∅ -> (matched, missing, overlap_ratio) = ([], [], 1))
  /\ match_skills resume_text "" = ([], [], 1).
Proof.
  intros resume_skills jd_skills. unfold match_skills.
  fold resume_skills jd_skills.
  destruct (decide (jd_skills = ∅)) as [Hempty | Hne].
  - split; [done|]. split; [done|].
    rewrite SkillFacts.extract_skills_empty_text. now destruct (decide _).
  - split; [intros _ | split; [done|]].
    + rewrite !SkillFacts.list_to_set_sorted, SkillFacts.length_sorted.
      repeat split; try apply SkillFacts.sorted_ascending.
      * apply set_eq. intros x.
        rewrite elem_of_union, elem_of_intersection, elem_of_difference.
        destruct (decide (x ∈ resume_skills)); tauto.
      * apply set_eq. intros x.
        rewrite elem_of_intersection, elem_of_intersection,
          elem_of_difference, elem_of_empty. tauto.
    + rewrite SkillFacts.extract_skills_empty_text. now destruct (decide _).
Qed.

(** The example of the [match_skills] docstring: the one-letter skills
    "c" and "r" are found inside "docker" and "for". *)
Example match_skills_docstring :
  let '(matched, missing, overlap_ratio) :=
    match_skills "I know Python and Docker"
                 "Looking for Python, Docker, and Kubernetes expert" in
  matched = ["c"; "docker"; "python"; "r"] /\ missing = ["kubernetes"] /\
  overlap_ratio == 4 # 5.
Proof. vm_compute. auto. Qed.

(** C9. No text yields "scikit-learn", "node.js" or "ci/cd": the
    normalised text holds lowercase letters, digits, [+] and spaces only,
    so a vocabulary entry with another character is never a substring of
    it. *)
Theorem punctuated_skills_unreachable (text : string) :
  ("scikit-learn" ∈ RECOGNIZED_SKILLS /\ "node.js" ∈ RECOGNIZED_SKILLS /\
   "ci/cd" ∈ RECOGNIZED_SKILLS) /\
  Text.all is_kept (_normalize_text text) = true /\
  (forall skill, skill ∈ extract_skills text -> Text.all is_kept skill = true) /\
  ("scikit-learn" ∉ extract_skills text) /\
  ("node.js" ∉ extract_skills text) /\
  ("ci/cd" ∉ extract_skills text).
Proof.
  split; [|split; [apply SkillFacts.normalize_kept|split]].
  - split; [|split]; apply SkillFacts.elem_of_vocabulary; reflexivity.
  - apply SkillFacts.extract_skills_kept.
  - split; [|split]; intros Hin%SkillFacts.extract_skills_kept;
      discriminate Hin.
Qed.

(** ** The matcher against the texts a pattern describes *)

Module RegexFacts.
Import Regex.

Lemma app_cons (c : ascii) (s t : string) :
  String c s +:+ t = String c (s +:+ t).
Proof. reflexivity. Qed.

Lemma app_nil_l (s : string) : "" +:+ s = s.
Proof. reflexivity. Qed.

Lemma app_nil_r (s : string) : s +:+ "" = s.
Proof. induction s as [|c s IH]; [done|]. now rewrite app_cons, IH. Qed.

Lemma app_assoc (s t u : string) : (s +:+ t) +:+ u = s +:+ (t +:+ u).
Proof. induction s as [|c s IH]; [done|]. now rewrite !app_cons, IH. Qed.

Lemma length_app (s t : string) :
  String.length (s +:+ t) = (String.length s + String.length t)%nat.
Proof. induction s as [|c s IH]; [done|]. rewrite app_cons. simpl. now rewrite IH. Qed.

Lemma take_app (w s : string) :
  take (String.length (w +:+ s) - String.length s) (w +:+ s) = w.
Proof.
  rewrite length_app.
  replace (String.length w + String.length s - String.length s)%nat
    with (String.length w) by lia.
  induction w as [|c w IH]; simpl.
  - now destruct s.
  - now rewrite IH.
Qed.

Section Sound.
Context {A : Type}.

Definition sound_at (r : re)
    (m : string -> option string ->
         (string -> option string -> option A) -> option A) : Prop :=
  forall s g k a, m s g k = Some a ->
    exists w s' g', s = w +:+ s' /\ matches r w g g' /\ k s' g' = Some a.

Lemma star_loop_sound (r : re) body :
  sound_at r body -> forall n, sound_at (Star r) (star_loop body n).
Proof.
  intros Hbody n. induction n as [|n IH]; intros s g k a; simpl.
  - intros Hk. exists "", s, g. eauto using matches.
  - destruct (body s g _) as [a'|] eqn:Hb.
    + intros [= ->]. destruct (Hbody _ _ _ _ Hb) as (w1 & s1 & g1 & Hs & Hm1 & Hk).
      clear Hb. subst s.
      destruct (String.length s1 <? String.length (w1 +:+ s1))%nat eqn:Hlen;
        [|done].
      destruct (IH _ _ _ _ Hk) as (w2 & s2 & g2 & Hs & Hm2 & Hk2). subst s1.
      exists (w1 +:+ w2), s2, g2. rewrite app_assoc. split; [done|].
      split; [|done]. apply matches_star_cons with g1; [done| |done].
      intros ->. apply Nat.ltb_lt in Hlen. rewrite app_nil_l in Hlen. lia.
    + intros Hk. exists "", s, g. eauto using matches.
Qed.

End Sound.

Lemma run_sound (r : re) : forall A, sound_at (A:=A) r (run r).
Proof.
  induction r as [|p|r1 IH1 r2 IH2|r1 IH1|r1 IH1|r1 IH1]; intros A s g k a; simpl.
  - intros Hk. exists "", s, g. eauto using matches.
  - destruct s as [|c s]; [done|]. destruct (p c) eqn:Hp; [|done].
    intros Hk. exists (String c ""), s, g. eauto using matches.
  - intros H. destruct (IH1 _ _ _ _ _ H) as (w1 & s1 & g1 & Hs & Hm1 & H1).
    destruct (IH2 _ _ _ _ _ H1) as (w2 & s2 & g2 & Hs1 & Hm2 & H2).
    clear H. subst.
    exists (w1 +:+ w2), s2, g2. rewrite app_assoc. eauto using matches.
  - destruct (run r1 s g k) as [a'|] eqn:H.
    + intros [= ->]. destruct (IH1 _ _ _ _ _ H) as (w & s' & g' & Hs & Hm & H1).
      clear H. subst.
      exists w, s', g'. eauto using matches.
    + intros Hk. exists "", s, g. eauto using matches.
  - apply star_loop_sound, IH1.
  - intros H. destruct (IH1 _ _ _ _ _ H) as (w & s' & g' & Hs & Hm & H1).
    clear H. subst. rewrite take_app in H1. exists w, s', (Some w). eauto using matches.
Qed.

Section Complete.
Context {A : Type}.

Definition complete_at (r : re)
    (m : string -> option string ->
         (string -> option string -> option A) -> option A) : Prop :=
  forall w g g' s' k, matches r w g g' -> k s' g' <> None ->
    m (w +:+ s') g k <> None.

Lemma star_loop_complete (r : re) body :
  complete_at r body ->
  forall w g g', matches (Star r) w g g' ->
  forall n s' k, (String.length w <= n)%nat -> k s' g' <> None ->
    star_loop body n (w +:+ s') g k <> None.
Proof.
  intros Hbody w g g' Hm. remember (Star r) as sr eqn:Hsr.
  induction Hm as [| | | | | r' g | r' w1 w2 g g1 g2 Hm1 _ Hw1 Hm2 IH2 | ];
    inversion Hsr; subst; intros n s' k Hn Hk.
  - destruct n; simpl; [done|]. now destruct (body _ _ _).
  - destruct n as [|n].
    { destruct w1; [done|]. rewrite app_cons in Hn. simpl in Hn. lia. }
    simpl. destruct (body _ _ _) eqn:Hb; [done|]. exfalso.
    rewrite app_assoc in Hb. revert Hb. apply (Hbody w1 g g1); [done|].
    assert ((String.length (w2 +:+ s')
             <? String.length (w1 +:+ w2 +:+ s'))%nat = true) as ->.
    { apply Nat.ltb_lt. rewrite (length_app w1).
      destruct w1; simpl; [done|lia]. }
    apply IH2; [done| |done]. rewrite length_app in Hn. destruct w1; simpl in Hn; [done|lia].
Qed.

End Complete.

Lemma run_complete (r : re) : forall A, complete_at (A:=A) r (run r).
Proof.
  induction r as [|p|r1 IH1 r2 IH2|r1 IH1|r1 IH1|r1 IH1];
    intros A w g g' s' k Hm Hk; inversion Hm; subst.
  - done.
  - simpl. now rewrite H0.
  - rewrite app_assoc. simpl. eapply IH1; [eassumption|].
    eapply IH2; eassumption.
  - simpl. destruct (run r1 _ _ k) eqn:H; [done|]. exfalso. revert H.
    eapply IH1; eassumption.
  - simpl. rewrite app_nil_l. now destruct (run r1 _ _ k).
  - simpl. rewrite app_nil_l. destruct s'; simpl; [done|].
    now destruct (run r1 _ _ _).
  - simpl. eapply star_loop_complete; [apply IH1 | exact Hm | | exact Hk].
    rewrite (length_app (w1 +:+ w2)). lia.
  - simpl. eapply IH1; [eassumption|]. now rewrite take_app.
Qed.

Lemma match_at_sound (r : re) (s rest : string) (g : option string) :
  match_at r s = Some (rest, g) ->
  exists w, s = w +:+ rest /\ matches r w None g.
Proof.
  unfold match_at. intros H.
  destruct (run_sound r _ _ _ _ _ H) as (w & s' & g' & -> & Hm & [= -> ->]).
  eauto.
Qed.

Lemma match_at_complete (r : re) (w rest : string) (g : option string) :
  matches r w None g -> match_at r (w +:+ rest) <> None.
Proof. intros Hm. unfold match_at. eapply run_complete; [exact Hm | done]. Qed.

(** Every text [findall] reports is the group of a match somewhere in
    the text. *)
Lemma findall_from_sound (r : re) (s : string) :
  forall skip c, In c (findall_from r skip s) ->
  exists pre w post g,
    s = pre +:+ w +:+ post /\ matches r w None g /\ c = default "" g.
Proof.
  induction s as [|a s IH]; intros skip c; simpl; [done|].
  assert (forall n, In c (findall_from r n s) ->
          exists pre w post g,
            String a s = pre +:+ w +:+ post /\ matches r w None g /\
            c = default "" g) as Hlater.
  { intros n Hn. destruct (IH n c Hn) as (pre & w & post & g & -> & Hm & ->).
    exists (String a pre), w, post, g. eauto. }
  destruct skip as [|n]; [|apply Hlater].
  destruct (match_at r (String a s)) as [[rest g]|] eqn:Hmatch; [|apply Hlater].
  intros [<- | Hin]; [|eapply Hlater, Hin].
  destruct (match_at_sound r _ _ _ Hmatch) as (w & Hs & Hm).
  exists "", w, rest, g. eauto.
Qed.

(** Where a non-empty match exists, [findall] reports something. *)
Lemma findall_complete (r : re) (pre w post : string) (g : option string) :
  matches r w None g -> w <> "" -> findall r (pre +:+ w +:+ post) <> [].
Proof.
  intros Hm Hw. unfold findall.
  induction pre as [|a pre IH].
  - rewrite app_nil_l.
    pose proof (match_at_complete r w post g Hm) as Hc.
    destruct w as [|b w]; [done|]. rewrite app_cons in *. simpl.
    destruct (match_at r _) as [[rest g']|]; done.
  - rewrite app_cons. simpl.
    destruct (match_at r _) as [[rest g']|]; [done | exact IH].
Qed.

(** *** The shapes the classes, words and options of a pattern match *)

Lemma matches_class_inv p w g g' :
  matches (Class p) w g g' ->
  g' = g /\ exists c, w = String c "" /\ p c = true.
Proof. inversion 1; subst. eauto. Qed.

Lemma matches_star_class p w g g' :
  matches (Star (Class p)) w g g' -> g' = g /\ Text.all p w = true.
Proof.
  intros Hm. remember (Star (Class p)) as r eqn:Hr.
  induction Hm as [| | | | | | r' w1 w2 g g1 g2 Hm1 _ _ _ IH2 |];
    inversion Hr; subst; [done|].
  destruct (matches_class_inv _ _ _ _ Hm1) as (-> & c & -> & Hc).
  destruct (IH2 eq_refl) as [-> Hall]. split; [done|].
  rewrite app_cons, app_nil_l. simpl. now rewrite Hc.
Qed.

Lemma matches_plus_class p w g g' :
  matches (Plus (Class p)) w g g' ->
  g' = g /\ w <> "" /\ Text.all p w = true.
Proof.
  inversion 1 as [| |? ? w1 w2 ? g1 ? Hm1 Hm2| | | | |]; subst.
  destruct (matches_class_inv _ _ _ _ Hm1) as (-> & c & -> & Hc).
  destruct (matches_star_class _ _ _ _ Hm2) as [-> Hall].
  rewrite app_cons, app_nil_l. split; [done|]. split; [done|].
  simpl. now rewrite Hc.
Qed.

Lemma matches_lit l w g g' : matches (Lit l) w g g' -> g' = g /\ w = l.
Proof.
  revert w g. induction l as [|c l IH]; intros w g; simpl.
  - inversion 1; subst. done.
  - inversion 1 as [| |? ? w1 w2 ? g1 ? Hm1 Hm2| | | | |]; subst.
    destruct (matches_class_inv _ _ _ _ Hm1) as (-> & c' & -> & Hc).
    apply Ascii.eqb_eq in Hc as <-.
    destruct (IH _ _ Hm2) as [-> ->]. done.
Qed.

Lemma matches_opt_chr c w g g' :
  matches (Opt (Chr c)) w g g' -> g' = g /\ (w = "" \/ w = String c "").
Proof.
  inversion 1 as [| | |? ? ? ? Hm| | | |]; subst; [|auto].
  destruct (matches_class_inv _ _ _ _ Hm) as (-> & c' & -> & Hc).
  apply Ascii.eqb_eq in Hc as <-. auto.
Qed.

Lemma matches_star_class_intro p w g :
  Text.all p w = true -> matches (Star (Class p)) w g g.
Proof.
  induction w as [|c w IH]; simpl; [constructor|].
  intros [Hc Hw]%andb_true_iff.
  change (String c w) with (String c "" +:+ w).
  apply matches_star_cons with g; [now constructor | done | auto].
Qed.

Lemma matches_plus_class_intro p w g :
  w <> "" -> Text.all p w = true -> matches (Plus (Class p)) w g g.
Proof.
  destruct w as [|c w]; [done|]. simpl. intros _ [Hc Hw]%andb_true_iff.
  change (String c w) with (String c "" +:+ w).
  apply matches_seq with g; [now constructor|].
  now apply matches_star_class_intro.
Qed.

Lemma matches_lit_intro l g : matches (Lit l) l g g.
Proof.
  induction l as [|c l IH]; simpl; [constructor|].
  change (String c l) with (String c "" +:+ l).
  apply matches_seq with g; [|done]. constructor. apply Ascii.eqb_refl.
Qed.

Lemma matches_opt_chr_intro c w g :
  w = "" \/ w = String c "" -> matches (Opt (Chr c)) w g g.
Proof.
  intros [-> | ->]; [apply matches_opt_none|].
  apply matches_opt_some. constructor. apply Ascii.eqb_refl.
Qed.

Lemma matches_seq_inv r1 r2 w g g2 :
  matches (Seq r1 r2) w g g2 ->
  exists w1 w2 g1, w = w1 +:+ w2 /\ matches r1 w1 g g1 /\ matches r2 w2 g1 g2.
Proof. inversion 1; subst. eauto 8. Qed.

Lemma matches_group_inv r w g g' :
  matches (Group r) w g g' -> g' = Some w /\ exists g1, matches r w g g1.
Proof. inversion 1; subst. eauto. Qed.

Lemma matches_opt_inv r w g g' :
  matches (Opt r) w g g' -> (w = "" /\ g' = g) \/ matches r w g g'.
Proof. inversion 1; subst; auto. Qed.

End RegexFacts.

(** ** The pattern for years of experience *)

Module YearsFacts.
Import Regex RegexFacts.

Lemma numeral_inv w g g' :
  matches
    (Seq (Plus (Class Text.is_digit))
         (Opt (Seq (Chr ".") (Plus (Class Text.is_digit))))) w g g' ->
  g' = g /\ is_numeral w.
Proof.
  intros (ip & rest & g1 & -> & Hip & Hrest)%matches_seq_inv.
  apply matches_plus_class in Hip as (-> & Hne & Hdigits).
  apply matches_opt_inv in Hrest as [[-> ->] | Hfrac].
  - split; [done|]. exists ip. rewrite app_nil_r. auto.
  - apply matches_seq_inv in Hfrac as (dot & fp & g2 & -> & Hdot & Hfp).
    apply matches_class_inv in Hdot as (-> & c & -> & <-%Ascii.eqb_eq).
    apply matches_plus_class in Hfp as (-> & Hfne & Hfdigits).
    split; [done|]. exists ip. split; [done|]. split; [done|]. right.
    exists fp. auto.
Qed.

Lemma numeral_intro w g :
  is_numeral w ->
  matches
    (Seq (Plus (Class Text.is_digit))
         (Opt (Seq (Chr ".") (Plus (Class Text.is_digit))))) w g g.
Proof.
  intros (ip & Hne & Hdigits & [-> | (fp & Hfne & Hfdigits & ->)]).
  - rewrite <- (app_nil_r ip). apply matches_seq with g.
    + now apply matches_plus_class_intro.
    + apply matches_opt_none.
  - apply matches_seq with g; [now apply matches_plus_class_intro|].
    apply matches_opt_some. apply matches_seq with g.
    + constructor. reflexivity.
    + now apply matches_plus_class_intro.
Qed.

(** What [YEARS_PATTERN] matches, and what its group holds then. *)
Lemma years_pattern_inv w g :
  matches YEARS_PATTERN w None g ->
  exists number, g = Some number /\ year_mention number w.
Proof.
  unfold YEARS_PATTERN. cbv zeta.
  intros (number & w1 & g1 & -> & Hgroup & H1)%matches_seq_inv.
  apply matches_group_inv in Hgroup as (-> & g0 & Hnum).
  apply numeral_inv in Hnum as [_ Hnum].
  apply matches_seq_inv in H1 as (ws1 & w2 & g2 & -> & Hws1 & H2).
  apply matches_star_class in Hws1 as [-> Hws1].
  apply matches_seq_inv in H2 as (plus & w3 & g3 & -> & Hplus & H3).
  apply matches_opt_chr in Hplus as [-> Hplus].
  apply matches_seq_inv in H3 as (ws2 & w4 & g4 & -> & Hws2 & H4).
  apply matches_star_class in Hws2 as [-> Hws2].
  apply matches_seq_inv in H4 as (year & tail & g5 & -> & Hyear & Htail).
  apply matches_lit in Hyear as [-> ->].
  apply matches_opt_chr in Htail as [-> Htail].
  exists number. split; [done|]. split; [done|].
  exists ws1, plus, ws2, tail. auto.
Qed.

Lemma years_pattern_intro number w :
  year_mention number w -> matches YEARS_PATTERN w None (Some number).
Proof.
  intros (Hnum & ws1 & plus & ws2 & tail & -> & Hws1 & Hplus & Hws2 & Htail).
  unfold YEARS_PATTERN. cbv zeta.
  apply matches_seq with (Some number).
  { eapply matches_group, numeral_intro, Hnum. }
  apply matches_seq with (Some number);
    [now apply matches_star_class_intro|].
  apply matches_seq with (Some number); [now apply matches_opt_chr_intro|].
  apply matches_seq with (Some number);
    [now apply matches_star_class_intro|].
  apply matches_seq with (Some number); [apply matches_lit_intro|].
  now apply matches_opt_chr_intro.
Qed.

(** Every number reported for a text stands in the text, followed by
    optional white space, an optional [+], optional white space and
    "year". *)
Lemma year_mentions_sound (s number : string) :
  In number (findall YEARS_PATTERN s) ->
  exists pre w post, s = pre +:+ w +:+ post /\ year_mention number w.
Proof.
  intros (pre & w & post & g & -> & Hm & ->)%findall_from_sound.
  apply years_pattern_inv in Hm as (number & -> & Hmention).
  exists pre, w, post. auto.
Qed.

(** A text in which a number stands that way has a number reported. *)
Lemma year_mentions_complete (pre w post number : string) :
  year_mention number w -> findall YEARS_PATTERN (pre +:+ w +:+ post) <> [].
Proof.
  intros Hmention.
  apply findall_complete with (Some number);
    [now apply years_pattern_intro|].
  destruct Hmention as ((ip & Hne & _ & Hshape) & ws1 & plus & ws2 & tail
                        & -> & _).
  destruct ip as [|c ip]; [done|].
  destruct Hshape as [-> | (fp & _ & _ & ->)]; discriminate.
Qed.

End YearsFacts.

(** ** Scoring *)

Module ScoreFacts.

Lemma py_min_Qmin (a b : Q) : py_min a b == Qmin a b.
Proof.
  unfold py_min. destruct (Qlt_le_dec b a) as [H | H].
  - symmetry. apply Q.min_r. now apply Qlt_le_weak.
  - symmetry. now apply Q.min_l.
Qed.

Lemma py_max_Qmax (a b : Q) : py_max a b == Qmax a b.
Proof.
  unfold py_max. destruct (Qlt_le_dec a b) as [H | H].
  - symmetry. apply Q.max_r. now apply Qlt_le_weak.
  - symmetry. now apply Q.max_l.
Qed.

(** *** [max] of a list *)

Lemma fold_py_max_ge (l : list Q) (x : Q) :
  x <= fold_left py_max l x /\
  List.Forall (fun y => y <= fold_left py_max l x) l.
Proof.
  revert x. induction l as [|y l IH]; intros x; simpl.
  - split; [apply Qle_refl | constructor].
  - destruct (IH (py_max x y)) as [Hge Hall].
    assert (x <= py_max x y /\ y <= py_max x y) as [Hx Hy].
    { unfold py_max. destruct (Qlt_le_dec x y); split; lra. }
    split; [lra|]. constructor; [lra | exact Hall].
Qed.

Lemma fold_py_max_In (l : list Q) (x : Q) : In (fold_left py_max l x) (x :: l).
Proof.
  revert x. induction l as [|y l IH]; intros x; simpl; [auto|].
  specialize (IH (py_max x y)). unfold py_max in *.
  destruct (Qlt_le_dec x y); simpl in IH; tauto.
Qed.

Lemma py_max_list_maximum (l : list Q) :
  maximum_or_zero l (match py_max_list l with Some m => m | None => 0 end).
Proof.
  destruct l as [|x l]; simpl.
  - repeat split; [intros ? [] | congruence].
  - destruct (fold_py_max_ge l x) as [Hx Hall].
    rewrite List.Forall_forall in Hall.
    repeat split; [discriminate | | intros _; apply (fold_py_max_In l x)].
    intros y [<- | Hy]; auto.
Qed.

(** *** [float] of a numeral *)

Lemma digits_value_nonneg (s : string) (acc : Z) :
  (0 <= acc)%Z -> (0 <= fst (digits_value acc s))%Z.
Proof.
  revert acc. induction s as [|c s IH]; intros acc Hacc; simpl; [done|].
  destruct (Text.is_digit c); simpl; [|done]. apply IH. lia.
Qed.

Lemma float_of_numeral_nonneg (s : string) : 0 <= float_of_numeral s.
Proof.
  unfold float_of_numeral.
  pose proof (digits_value_nonneg s 0 ltac:(lia)) as Hip.
  destruct (digits_value 0 s) as [ip rest]; simpl in Hip.
  assert (0 <= inject_Z ip) as Hint.
  { unfold Qle; simpl. lia. }
  destruct rest as [|c frac]; [done|].
  destruct (Ascii.eqb_spec c "."%char) as [->|Hc].
  - pose proof (digits_value_nonneg frac 0 ltac:(lia)) as Hfp.
    destruct (digits_value 0 frac) as [fp rest']; simpl in Hfp.
    unfold Qle; simpl. nia.
  - destruct c as [[] [] [] [] [] [] [] []]; try exact Hint. now destruct Hc.
Qed.

(** *** Years of experience *)

Lemma extract_years_maximum (text : string) :
  maximum_or_zero (year_mentions text) (_extract_years_of_experience text).
Proof. apply py_max_list_maximum. Qed.

Lemma extract_years_nonneg (text : string) :
  0 <= _extract_years_of_experience text.
Proof.
  destruct (extract_years_maximum text) as (Hnil & _ & Hin).
  destruct (year_mentions text) as [|x l] eqn:Hl.
  - rewrite Hnil by done. apply Qle_refl.
  - specialize (Hin ltac:(discriminate)). rewrite <- Hl in Hin.
    unfold year_mentions in Hin. apply in_map_iff in Hin as (s & <- & _).
    apply float_of_numeral_nonneg.
Qed.

Lemma experience_score_unfold (resume_text jd_text : string) :
  let candidate_years := _extract_years_of_experience resume_text in
  let required_years := _extract_years_of_experience jd_text in
  (required_years <= 0 -> compute_experience_score resume_text jd_text == 1) /\
  (0 < required_years ->
   compute_experience_score resume_text jd_text
   == Qmax 0 (Qmin (candidate_years / required_years) 1)).
Proof.
  intros c r. unfold compute_experience_score. fold c r.
  destruct (Qle_bool r 0) eqn:Hr.
  - apply Qle_bool_iff in Hr. split; [reflexivity | lra].
  - assert (~ r <= 0) as Hr' by (rewrite <- Qle_bool_iff; congruence).
    split; [lra|]. intros _.
    now rewrite py_max_Qmax, py_min_Qmin.
Qed.

Lemma experience_score_bounds (resume_text jd_text : string) :
  0 <= compute_experience_score resume_text jd_text <= 1.
Proof.
  destruct (experience_score_unfold resume_text jd_text) as [H0 Hpos].
  destruct (Qlt_le_dec 0 (_extract_years_of_experience jd_text)) as [Hr | Hr].
  - rewrite (Hpos Hr).
    split; [apply Q.le_max_l|].
    apply Q.max_lub; [lra | apply Q.le_min_r].
  - rewrite (H0 Hr). lra.
Qed.

(** *** Rounding *)

#[global] Instance round_half_even_proper : Proper (Qeq ==> eq) round_half_even.
Proof.
  intros x y Hxy. unfold round_half_even.
  rewrite <- (Qfloor_comp x y Hxy).
  assert (x - inject_Z (Qfloor x) == y - inject_Z (Qfloor x)) as Hd
    by (apply Qplus_comp; [exact Hxy | reflexivity]).
  now rewrite (Qcompare_comp _ _ Hd _ _ (Qeq_refl (1 # 2))).
Qed.

#[global] Instance py_round_proper : Proper (Qeq ==> eq ==> Qeq) py_round.
Proof.
  intros x y Hxy n _ <-. unfold py_round.
  assert (x * inject_Z (10 ^ Z.of_nat n) == y * inject_Z (10 ^ Z.of_nat n))
    as Heq by now rewrite Hxy.
  now rewrite (round_half_even_proper _ _ Heq).
Qed.

(** Rounding to an integer moves a number by at most one half. *)
Lemma round_half_even_close (x : Q) :
  Qabs (inject_Z (round_half_even x) - x) <= 1 # 2.
Proof.
  unfold round_half_even.
  pose proof (Qfloor_le x) as Hlo. pose proof (Qlt_floor x) as Hhi.
  rewrite inject_Z_plus in Hhi. change (inject_Z 1) with 1 in Hhi.
  apply Qabs_Qle_condition.
  destruct (Qcompare (x - inject_Z (Qfloor x)) (1 # 2)) eqn:Hc.
  - apply Qeq_alt in Hc.
    destruct (Z.even (Qfloor x)); [|rewrite inject_Z_plus;
      change (inject_Z 1) with 1]; lra.
  - apply Qlt_alt in Hc. lra.
  - apply Qgt_alt in Hc. rewrite inject_Z_plus.
    change (inject_Z 1) with 1. lra.
Qed.

Lemma py_round_2_cents (x : Q) :
  py_round x 2 == round_half_even (x * 100) # 100.
Proof.
  unfold py_round. change (inject_Z (10 ^ Z.of_nat 2)) with 100.
  rewrite (Qmake_Qdiv _ 100). reflexivity.
Qed.

Lemma py_round_2_close (x : Q) : Qabs (py_round x 2 - x) <= 1 # 200.
Proof.
  pose proof (round_half_even_close (x * 100)) as H.
  apply Qabs_Qle_condition in H. apply Qabs_Qle_condition.
  unfold py_round. change (inject_Z (10 ^ Z.of_nat 2)) with 100.
  set (n := inject_Z (round_half_even (x * 100))) in *.
  assert (n / 100 == n * (1 # 100)) as -> by (unfold Qdiv; reflexivity).
  lra.
Qed.

End ScoreFacts.

(** The example of the [compute_final_score] docstring. *)
Example compute_final_score_docstring :
  compute_final_score (85 # 100) (75 # 100) 1 == 835 # 10.
Proof. reflexivity. Qed.

Example float_of_numeral_examples :
  float_of_numeral "12" == 12 /\ float_of_numeral "3.5" == 7 # 2 /\
  float_of_numeral "007.50" == 15 # 2 /\ float_of_numeral "0.125" == 1 # 8.
Proof. vm_compute. tauto. Qed.

(** The examples of the docstrings of [scorer.py]. *)
Example extract_years_docstring :
  _extract_years_of_experience "5+ years of Python experience" == 5 /\
  _extract_years_of_experience "3.5 years software development" == 35 # 10 /\
  _extract_years_of_experience "Recent college graduate" == 0 /\
  compute_experience_score "Software engineer with 3 years of experience"
                           "Looking for 5+ years experience" == 6 # 10 /\
  compute_experience_score "Software engineer with 3 years of experience"
                           "Looking for a software engineer" == 1.
Proof. vm_compute. tauto. Qed.

(** What [re.findall] reports on a text with several mentions: a number
    needs "year" after it, a lone dot does not continue a number, and
    white space may stand on both sides of the [+]. *)
Example findall_years :
  Regex.findall YEARS_PATTERN
    "5+ years python, 3.5 years java, 12  +  yearsx 7. years 8 .5 year 10+years"
  = ["5"; "3.5"; "12"; "5"; "10"].
Proof. vm_compute. reflexivity. Qed.

(** ** The empty resume *)

Module EmptyResumeFacts.
Import Text TextFacts SkillFacts.

Lemma mention_not_blank (word text : string) :
  all is_space word = false ->
  contains word (lower text) = true -> is_blank text = false.
Proof.
  intros Hword Hin. destruct (is_blank text) eqn:Hb; [|done].
  apply is_blank_iff in Hb.
  assert (all is_space (lower text) = true) as Hl.
  { unfold lower. eapply all_map_impl; [|exact Hb]. apply lower_char_space. }
  rewrite (contains_all is_space word (lower text) Hin Hl) in Hword.
  discriminate.
Qed.

(** A word of kept characters that the lowercased text mentions is still
    there after normalisation. *)
Lemma mention_normalized (word text : string) :
  all is_kept word = true ->
  contains word (lower text) = true ->
  contains word (_normalize_text text) = true.
Proof.
  intros Hword Hin. unfold _normalize_text.
  apply (contains_map (fun c => if is_kept c then c else " "%char)) in Hin.
  assert (map (fun c => if is_kept c then c else " "%char) word = word) as Heq.
  { clear Hin. induction word as [|c w IH]; simpl in *; [done|].
    apply andb_true_iff in Hword as [-> Hw]. now rewrite IH. }
  now rewrite Heq in Hin.
Qed.

Lemma mentioned_skill_extracted (skill text : string) :
  skill ∈ RECOGNIZED_SKILLS ->
  all is_kept skill = true -> all is_space skill = false ->
  contains skill (lower text) = true ->
  skill ∈ extract_skills text.
Proof.
  intros Hvoc Hkept Hspace Hin. apply elem_of_extract_skills.
  eauto using mention_not_blank, mention_normalized.
Qed.

Lemma match_skills_empty_resume (jd_text : string) :
  extract_skills jd_text ≠ ∅ ->
  match_skills "" jd_text
  = ([], sorted (extract_skills jd_text),
     len_Q (∅ ∩ extract_skills jd_text) / len_Q (extract_skills jd_text)).
Proof.
  intros Hne. unfold match_skills. rewrite extract_skills_empty_text.
  destruct (decide (extract_skills jd_text = ∅)) as [|_]; [done|].
  assert ((∅ : gset string) ∩ extract_skills jd_text = ∅) as Hinter.
  { apply set_eq. intros x. rewrite elem_of_intersection, elem_of_empty. tauto. }
  assert (extract_skills jd_text ∖ (∅ : gset string) = extract_skills jd_text)
    as Hdiff.
  { apply set_eq. intros x. rewrite elem_of_difference, elem_of_empty. tauto. }
  now rewrite Hdiff, Hinter.
Qed.

End EmptyResumeFacts.

(** ** Sentence splitting *)

Module TokenFacts.
Import Text TextFacts.

Definition head_not_space (s : string) : Prop :=
  match s with
  | String c _ => is_space c = false
  | EmptyString => True
  end.

Lemma lstrip_head (s : string) : head_not_space (lstrip s).
Proof.
  induction s as [|c s IH]; simpl; [done|].
  destruct (is_space c) eqn:Hc; simpl; done.
Qed.

Lemma lstrip_fixed (s : string) : head_not_space s -> lstrip s = s.
Proof. destruct s as [|c s]; simpl; [done|]. now intros ->. Qed.

Lemma rstrip_head (s : string) : head_not_space s -> head_not_space (rstrip s).
Proof.
  destruct s as [|c s]; simpl; [done|]. intros Hc.
  destruct (rstrip s); simpl; [now rewrite Hc | done].
Qed.

Lemma rstrip_idem (s : string) : rstrip (rstrip s) = rstrip s.
Proof.
  induction s as [|c s IH]; simpl; [done|].
  destruct (rstrip s) as [|d r] eqn:Hr.
  - destruct (is_space c) eqn:Hc; simpl; [done|]. now rewrite Hc.
  - change (rstrip (String c (String d r)))
      with (match rstrip (String d r) with
            | EmptyString =>
                if is_space c then EmptyString else String c EmptyString
            | String x y => String c (String x y)
            end).
    now rewrite IH.
Qed.

(** Stripping twice is stripping once: [s.strip()] is trimmed. *)
Lemma strip_idem (s : string) : strip (strip s) = strip s.
Proof.
  unfold strip.
  rewrite (lstrip_fixed (rstrip (lstrip s))).
  - apply rstrip_idem.
  - apply rstrip_head, lstrip_head.
Qed.

Lemma split_not_nil (sep : ascii) (s : string) : split sep s <> [].
Proof.
  induction s as [|c s IH]; simpl; [done|].
  destruct (Ascii.eqb c sep); [done|]. now destruct (split sep s).
Qed.

(** Joining the fragments with the separator gives the text back. *)
Lemma concat_split (sep : ascii) (s : string) :
  String.concat (String sep EmptyString) (split sep s) = s.
Proof.
  induction s as [|c s IH]; simpl; [done|].
  pose proof (split_not_nil sep s) as Hne.
  destruct (Ascii.eqb_spec c sep) as [->|Hc].
  - destruct (split sep s) as [|f fs]; [done|]. simpl in *. now rewrite IH.
  - destruct (split sep s) as [|f fs]; [done|].
    destruct fs as [|g fs]; simpl in *; now rewrite <- IH.
Qed.

(** No fragment holds the separator. *)
Lemma split_no_sep (sep : ascii) (s : string) :
  List.Forall (fun f => all (fun c => negb (Ascii.eqb c sep)) f = true)
    (split sep s).
Proof.
  induction s as [|c s IH]; simpl; [by constructor|].
  destruct (Ascii.eqb c sep) eqn:Hc.
  - by constructor.
  - destruct (split sep s) as [|f fs]; [by constructor; [simpl; rewrite Hc|]|].
    inversion IH as [|? ? Hf Hfs]; subst.
    constructor; [simpl; now rewrite Hc | done].
Qed.

Lemma replace_char_gone (old new : ascii) (s : string) :
  old <> new ->
  all (fun c => negb (Ascii.eqb c old)) (replace_char old new s) = true.
Proof.
  intros Hne. unfold replace_char. apply all_map. intros c.
  destruct (Ascii.eqb_spec c old) as [->|Hc].
  - apply negb_true_iff, Ascii.eqb_neq. congruence.
  - now apply negb_true_iff, Ascii.eqb_neq.
Qed.

Lemma tokenize_blank (text : string) :
  is_blank text = true -> _tokenize_into_sentences text = [EmptyString].
Proof. unfold _tokenize_into_sentences. now intros ->. Qed.

Lemma tokenize_fragments (text : string) :
  is_blank text = false -> kept_fragments text <> [] ->
  _tokenize_into_sentences text = List.map strip (kept_fragments text).
Proof.
  unfold _tokenize_into_sentences, kept_fragments. intros -> Hne.
  now destruct (List.filter _ _).
Qed.

Lemma tokenize_fallback (text : string) :
  is_blank text = false -> kept_fragments text = [] ->
  _tokenize_into_sentences text = [text].
Proof.
  unfold _tokenize_into_sentences, kept_fragments. now intros -> ->.
Qed.

Lemma kept_fragments_trimmed (text : string) :
  List.Forall (fun s => s <> EmptyString /\ strip s = s)
    (List.map strip (kept_fragments text)).
Proof.
  apply List.Forall_forall. intros s Hs.
  apply in_map_iff in Hs as (f & <- & Hf).
  apply filter_In in Hf as [_ Hf]. split; [|apply strip_idem].
  intros Hempty. now rewrite Hempty in Hf.
Qed.

(** Every text gives at least one sentence. *)
Lemma tokenize_not_nil (text : string) : _tokenize_into_sentences text <> [].
Proof.
  unfold _tokenize_into_sentences. destruct (is_blank text); [done|].
  now destruct (List.map _ _).
Qed.

End TokenFacts.

(** C6, as the code has it.  The splitter turns every newline into a
    space, cuts the text at each [.] and nowhere else, trims the
    fragments and drops the empty ones; the sentences it returns are the
    trimmed fragments, each non-empty and trimmed.  An empty or blank
    text gives the single sentence [""], which is the stripped text.  A
    text that is not blank but has no fragment left gives a single
    sentence that is the text itself, unchanged. *)
Theorem tokenize_spec (text : string) :
  let collapsed := Text.replace_char "010" " " text in
  let fragments := Text.split "." collapsed in
  let kept :=
    List.filter (fun s => negb (Text.is_empty (Text.strip s))) fragments in
  Text.all (fun c => negb (Ascii.eqb c "010")) collapsed = true /\
  String.length collapsed = String.length text /\
  String.concat "." fragments = collapsed /\
  List.Forall (fun f => Text.all (fun c => negb (Ascii.eqb c ".")) f = true)
    fragments /\
  (Text.is_blank text = true ->
   _tokenize_into_sentences text = [""] /\ Text.strip text = "") /\
  (Text.is_blank text = false -> kept <> [] ->
   _tokenize_into_sentences text = List.map Text.strip kept /\
   List.Forall (fun s => s <> "" /\ Text.strip s = s)
     (_tokenize_into_sentences text)) /\
  (Text.is_blank text = false -> kept = [] ->
   _tokenize_into_sentences text = [text]).
Proof.
  intros collapsed fragments kept.
  split; [now apply TokenFacts.replace_char_gone|].
  split.
  { unfold collapsed, Text.replace_char. clear.
    induction text as [|c s IH]; simpl; congruence. }
  split; [apply TokenFacts.concat_split|].
  split; [apply TokenFacts.split_no_sep|].
  split; [|split].
  - intros Hb. split; [now apply TokenFacts.tokenize_blank|].
    apply TextFacts.is_blank_iff, TextFacts.strip_empty_iff in Hb.
    now destruct (Text.strip text).
  - intros Hb Hne.
    rewrite (TokenFacts.tokenize_fragments text Hb Hne).
    split; [reflexivity | apply TokenFacts.kept_fragments_trimmed].
  - apply TokenFacts.tokenize_fallback.
Qed.

Example tokenize_examples :
  _tokenize_into_sentences "Built APIs.  Led a team of 5.
Shipped v2. " = ["Built APIs"; "Led a team of 5"; "Shipped v2"] /\
  _tokenize_into_sentences "" = [""] /\
  _tokenize_into_sentences "   " = [""] /\
  _tokenize_into_sentences "..." = ["..."].
Proof. vm_compute. tauto. Qed.

(** C6 as stated fails on " .": the text is not blank and has no
    fragment left, and the sentence returned is the text itself with its
    leading space, not the stripped text ".". *)
Lemma tokenize_fallback_not_stripped :
  _tokenize_into_sentences " ." = [" ."] /\
  Text.strip " ." = "." /\
  ~ (forall text,
       List.Forall (fun s => Text.strip s = s) (_tokenize_into_sentences text)) /\
  ~ (forall text,
       Text.is_blank text = false -> kept_fragments text = [] ->
       _tokenize_into_sentences text = [Text.strip text]).
Proof.
  split; [reflexivity|]. split; [reflexivity|]. split.
  - intros H. specialize (H " ."). inversion H as [|? ? Hs _]. discriminate Hs.
  - intros H. specialize (H " ." eq_refl eq_refl). discriminate H.
Qed.

(** ** Semantic coverage *)

Module SimilarityFacts.

Lemma validate_ok_iff (source target : ndarray) :
  _validate_embeddings source target = Ok tt <-> valid_embeddings source target.
Proof.
  unfold _validate_embeddings, valid_embeddings.
  destruct (Nat.eqb_spec (size_of source) 0); [split; [done | tauto]|].
  destruct (Nat.eqb_spec (size_of target) 0); [split; [done | tauto]|].
  destruct (Nat.eqb_spec (ndim source) 2); simpl; [|split; [done | tauto]].
  destruct (Nat.eqb_spec (ndim target) 2); simpl; [|split; [done | tauto]].
  destruct (Nat.eqb_spec (shape1 source) (shape1 target)); simpl;
    [tauto | split; [done | tauto]].
Qed.

Lemma validate_result (source target : ndarray) :
  _validate_embeddings source target = Ok tt \/
  exists e, _validate_embeddings source target = Err e.
Proof.
  destruct (_validate_embeddings source target) as [[]|e]; eauto.
Qed.

Lemma invalid_iff (source target : ndarray) :
  ~ valid_embeddings source target <->
  size_of source = 0%nat \/ size_of target = 0%nat \/
  ndim source <> 2%nat \/ ndim target <> 2%nat \/
  shape1 source <> shape1 target.
Proof. unfold valid_embeddings. lia. Qed.

(** *** Rows *)

(** An array that passes the checks has at least one row. *)
Lemma valid_rows_not_nil (a : ndarray) :
  size_of a <> 0%nat -> ndim a = 2%nat -> rows a <> [].
Proof.
  unfold size_of, ndim, rows. destruct a as [sh d]; simpl.
  destruct sh as [|n [|w [|? ?]]]; simpl; try done.
  intros Hsize _ Hrows. destruct n; [lia|]. discriminate Hrows.
Qed.

(** *** The largest entry of a row *)

Lemma fold_Qmax_maximum (l : list Q) (x : Q) :
  is_maximum (fold_left Qmax l x) (x :: l).
Proof.
  revert x. induction l as [|y l IH]; intros x; simpl.
  - split; [exists x; split; [now left | reflexivity]|].
    intros y [<- | []]. apply Qle_refl.
  - destruct (IH (Qmax x y)) as [(z & Hz & Hm) Hub]. split.
    + destruct Hz as [<- | Hz]; [|exists z; simpl; auto].
      destruct (Q.max_spec x y) as [[_ Hxy] | [_ Hxy]].
      * exists y. split; [simpl; auto|]. now rewrite Hm.
      * exists x. split; [simpl; auto|]. now rewrite Hm.
    + intros z' [<- | [<- | Hz']].
      * eapply Qle_trans; [apply Q.le_max_l | apply Hub; now left].
      * eapply Qle_trans; [apply Q.le_max_r | apply Hub; now left].
      * apply Hub. now right.
Qed.

Lemma row_max_ok (row : list Q) :
  row <> [] -> exists m, row_max row = Ok m /\ is_maximum m row.
Proof.
  destruct row as [|x row]; [done|]. intros _.
  exists (fold_left Qmax row x). split; [done | apply fold_Qmax_maximum].
Qed.

Lemma is_maximum_unique (m m' : Q) (l : list Q) :
  is_maximum m l -> is_maximum m' l -> m == m'.
Proof.
  intros [(y & Hy & Hm) Hub] [(y' & Hy' & Hm') Hub'].
  apply Qle_antisym.
  - rewrite Hm. now apply Hub'.
  - rewrite Hm'. now apply Hub.
Qed.

Lemma is_maximum_Permutation (m : Q) (l l' : list Q) :
  l ≡ₚ l' -> is_maximum m l -> is_maximum m l'.
Proof.
  intros Hp [(y & Hy & Hm) Hub]. split.
  - exists y. split; [|done]. eapply Permutation_in; eauto.
  - intros z Hz. apply Hub. eapply Permutation_in; [symmetry|]; eauto.
Qed.

(** The row maxima of a matrix without an empty row. *)
Lemma mapM_row_max (matrix : list (list Q)) :
  List.Forall (fun row => row <> []) matrix ->
  exists maxima,
    mapM row_max matrix = Ok maxima /\
    List.Forall2 (fun row m => is_maximum m row) matrix maxima.
Proof.
  induction 1 as [|row matrix Hrow _ (maxima & Hm & Hall)].
  - exists []. split; [done | constructor].
  - destruct (row_max_ok row Hrow) as (m & Hrm & Hmax).
    exists (m :: maxima). split; [|now constructor].
    simpl. rewrite Hrm. simpl. now rewrite Hm.
Qed.

(** *** Mean and clip *)

Lemma sum_Q_pointwise (l l' : list Q) :
  List.Forall2 Qeq l l' -> sum_Q l == sum_Q l'.
Proof.
  induction 1 as [|x y l l' Hxy _ IH]; simpl; [reflexivity|].
  now rewrite Hxy, IH.
Qed.

Lemma mean_pointwise (l l' : list Q) :
  List.Forall2 Qeq l l' -> mean l == mean l'.
Proof.
  intros H. unfold mean.
  rewrite (sum_Q_pointwise l l' H), (Forall2_length _ _ _ H). reflexivity.
Qed.

Lemma clip_bounds (x : Q) : 0 <= clip x 0 1 <= 1.
Proof.
  unfold clip. split; [|apply Q.le_min_r].
  apply Q.min_glb; [apply Q.le_max_r | lra].
Qed.

Lemma clip_proper (x y : Q) : x == y -> clip x 0 1 == clip y 0 1.
Proof. intros H. unfold clip. now rewrite H. Qed.

Section WithCosine.
Variable cosine : list Q -> list Q -> Q.

(** On arrays that pass the checks the score is the clipped mean of the
    row maxima. *)
Lemma average_max_valid (source target : ndarray) :
  valid_embeddings source target ->
  exists maxima,
    List.Forall2
      (fun x m => is_maximum m (List.map (cosine x) (rows target)))
      (rows source) maxima /\
    average_max_cosine_similarity cosine source target
    = Ok (clip (mean maxima) 0 1).
Proof.
  intros Hvalid. unfold average_max_cosine_similarity.
  rewrite (proj2 (validate_ok_iff source target) Hvalid). simpl.
  destruct Hvalid as (_ & Ht & _ & Hnt & _).
  pose proof (valid_rows_not_nil target Ht Hnt) as Hrows.
  destruct (mapM_row_max (cosine_similarity cosine source target))
    as (maxima & Hm & Hall).
  { unfold cosine_similarity. apply List.Forall_forall. intros row Hrow.
    apply in_map_iff in Hrow as (x & <- & _).
    now destruct (rows target). }
  exists maxima. rewrite Hm. simpl. split; [|reflexivity].
  unfold cosine_similarity in Hall. clear -Hall.
  remember (List.map _ (rows source)) as matrix eqn:Hmat.
  revert matrix maxima Hmat Hall.
  induction (rows source) as [|x xs IH]; intros matrix maxima -> Hall;
    inversion Hall; subst; constructor; eauto.
Qed.

Lemma average_max_invalid (source target : ndarray) :
  ~ valid_embeddings source target ->
  exists e, average_max_cosine_similarity cosine source target = Err e.
Proof.
  intros Hinvalid. unfold average_max_cosine_similarity.
  destruct (validate_result source target) as [Hok | (e & He)].
  - now apply validate_ok_iff in Hok.
  - exists e. now rewrite He.
Qed.

Lemma maxima_Permutation (xs : list (list Q)) (ys ys' : list (list Q))
    (maxima maxima' : list Q) :
  ys ≡ₚ ys' ->
  List.Forall2 (fun x m => is_maximum m (List.map (cosine x) ys)) xs maxima ->
  List.Forall2 (fun x m => is_maximum m (List.map (cosine x) ys')) xs maxima' ->
  List.Forall2 Qeq maxima maxima'.
Proof.
  intros Hp H. revert maxima'.
  induction H as [|x m xs maxima Hm _ IH]; intros maxima' H';
    inversion H' as [|? m' ? ? Hm' Hrest]; subst; constructor; [|auto].
  eapply is_maximum_unique; [|exact Hm'].
  eapply is_maximum_Permutation; [|exact Hm].
  now apply Permutation_map.
Qed.

End WithCosine.

(** An embedder that keeps its contract returns arrays that pass the
    checks. *)
Lemma contract_valid (encode : list string -> ndarray) (dim : nat)
    (batch1 batch2 : list string) :
  (0 < dim)%nat ->
  (forall batch, batch <> [] -> shape (encode batch) = [length batch; dim]) ->
  batch1 <> [] -> batch2 <> [] ->
  valid_embeddings (encode batch1) (encode batch2).
Proof.
  intros Hdim Hshape H1 H2. unfold valid_embeddings, size_of, ndim, shape1.
  rewrite (Hshape batch1 H1), (Hshape batch2 H2). simpl.
  destruct batch1, batch2; simpl; try done. repeat split; lia.
Qed.

End SimilarityFacts.

(** The cases the specification names: an array without entries, and a
    1 x 0 array. *)
Example average_max_empty_arrays (cosine : list Q -> list Q -> Q) :
  let ok := {| shape := [1%nat; 2%nat]; data := [1; 0] |} in
  average_max_cosine_similarity cosine {| shape := [0%nat]; data := [] |} ok
  = Err SourceEmpty /\
  average_max_cosine_similarity cosine ok {| shape := [1%nat; 0%nat]; data := [] |}
  = Err TargetEmpty /\
  average_max_cosine_similarity cosine {| shape := [2%nat]; data := [1; 0] |} ok
  = Err (SourceNot2D [2%nat]) /\
  average_max_cosine_similarity cosine ok {| shape := [1%nat; 3%nat]; data := [1; 0; 0] |}
  = Err (DimensionMismatch 2 3).
Proof. repeat split. Qed.

(** C5. On arrays that pass the checks, the score does not change when
    the rows of the target array are put in another order, and it lies
    between 0 and 1. *)
Theorem average_max_permutation_invariant
    (cosine : list Q -> list Q -> Q) (source target permuted : ndarray) :
  valid_embeddings source target ->
  shape permuted = shape target ->
  rows target ≡ₚ rows permuted ->
  exists score score',
    average_max_cosine_similarity cosine source target = Ok score /\
    average_max_cosine_similarity cosine source permuted = Ok score' /\
    score == score' /\
    0 <= score <= 1.
Proof.
  intros Hvalid Hshape Hperm.
  assert (valid_embeddings source permuted) as Hvalid'.
  { unfold valid_embeddings, size_of, ndim, shape1 in *. now rewrite Hshape. }
  destruct (SimilarityFacts.average_max_valid cosine source target Hvalid)
    as (maxima & Hmax & Hok).
  destruct (SimilarityFacts.average_max_valid cosine source permuted Hvalid')
    as (maxima' & Hmax' & Hok').
  exists (clip (mean maxima) 0 1), (clip (mean maxima') 0 1).
  split; [exact Hok|]. split; [exact Hok'|].
  split; [|apply SimilarityFacts.clip_bounds].
  apply SimilarityFacts.clip_proper, SimilarityFacts.mean_pointwise.
  eapply SimilarityFacts.maxima_Permutation; eauto.
Qed.

Lemma average_max_permutation_invariant_witness :
  let source := {| shape := [2%nat; 2%nat]; data := [1; 0; 3 # 5; 4 # 5] |} in
  let target := {| shape := [2%nat; 2%nat]; data := [1; 0; 0; 1] |} in
  let permuted := {| shape := [2%nat; 2%nat]; data := [0; 1; 1; 0] |} in
  valid_embeddings source target /\
  shape permuted = shape target /\
  rows target ≡ₚ rows permuted /\
  exists score score',
    average_max_cosine_similarity dot source target = Ok score /\
    average_max_cosine_similarity dot source permuted = Ok score' /\
    score == score' /\
    0 <= score <= 1.
Proof.
  intros source target permuted.
  assert (valid_embeddings source target) as Hvalid.
  { unfold valid_embeddings. simpl. repeat split; discriminate. }
  assert (rows target ≡ₚ rows permuted) as Hperm by apply perm_swap.
  split; [exact Hvalid|]. split; [reflexivity|]. split; [exact Hperm|].
  exact (average_max_permutation_invariant dot source target permuted
           Hvalid eq_refl Hperm).
Defined.

(** C10. Every text gives at least one sentence.  So with an embedder
    that maps a batch of [n >= 1] strings to an array of [n] rows of one
    fixed positive length, the checks of the coverage score pass and
    [evaluate] returns a result for every pair of texts. *)
Theorem evaluate_never_raises
    (encode : list string -> ndarray) (cosine : list Q -> list Q -> Q)
    (dim : nat) :
  (0 < dim)%nat ->
  (forall batch, batch <> [] -> shape (encode batch) = [length batch; dim]) ->
  forall resume_text jd_text,
    (1 <= length (_tokenize_into_sentences resume_text))%nat /\
    (1 <= length (_tokenize_into_sentences jd_text))%nat /\
    valid_embeddings (encode (_tokenize_into_sentences jd_text))
                     (encode (_tokenize_into_sentences resume_text)) /\
    exists r, evaluate encode cosine resume_text jd_text = Ok r.
Proof.
  intros Hdim Hshape resume_text jd_text.
  pose proof (TokenFacts.tokenize_not_nil resume_text) as Hr.
  pose proof (TokenFacts.tokenize_not_nil jd_text) as Hj.
  assert (valid_embeddings (encode (_tokenize_into_sentences jd_text))
                           (encode (_tokenize_into_sentences resume_text)))
    as Hvalid by now apply (SimilarityFacts.contract_valid encode dim).
  split; [destruct (_tokenize_into_sentences resume_text); simpl; [done|lia]|].
  split; [destruct (_tokenize_into_sentences jd_text); simpl; [done|lia]|].
  split; [exact Hvalid|].
  destruct (SimilarityFacts.average_max_valid cosine _ _ Hvalid)
    as (maxima & _ & Hok).
  unfold evaluate. rewrite Hok. simpl.
  destruct (match_skills resume_text jd_text) as [[matched missing] ratio].
  eauto.
Qed.

Lemma evaluate_never_raises_witness :
  (0 < 1)%nat /\
  (forall batch, batch <> [] ->
     shape (constant_encode batch) = [length batch; 1%nat]) /\
  exists r, evaluate constant_encode dot "" "Kubernetes. 5+ years." = Ok r.
Proof.
  assert (forall batch : list string, batch <> [] ->
            shape (constant_encode batch) = [length batch; 1%nat]) as Hshape
    by reflexivity.
  split; [lia|]. split; [exact Hshape|].
  exact (proj2 (proj2 (proj2
    (evaluate_never_raises constant_encode dot 1 (le_n 1) Hshape
       "" "Kubernetes. 5+ years.")))).
Defined.

(** ** Ranges and further properties *)

Module RoundFacts.

(** Rounding does not leave an interval between two integers. *)
Lemma round_half_even_between (a b : Z) (x : Q) :
  inject_Z a <= x <= inject_Z b ->
  (a <= round_half_even x <= b)%Z.
Proof.
  intros [Ha Hb]. unfold round_half_even.
  pose proof (Qfloor_le x) as Hlo.
  assert (a <= Qfloor x)%Z as Haf.
  { rewrite <- (Qfloor_Z a). now apply Qfloor_resp_le. }
  assert (Qfloor x <= b)%Z as Hfb.
  { rewrite Zle_Qle. lra. }
  assert (inject_Z (Qfloor x) < x -> (Qfloor x + 1 <= b)%Z) as Hup.
  { intros Hlt. assert (Qfloor x < b)%Z; [|lia].
    rewrite Zlt_Qlt. lra. }
  destruct (Qcompare (x - inject_Z (Qfloor x)) (1 # 2)) eqn:Hc.
  - apply Qeq_alt in Hc. destruct (Z.even (Qfloor x)); [lia|].
    split; [lia|]. apply Hup. lra.
  - lia.
  - apply Qgt_alt in Hc. split; [lia|]. apply Hup. lra.
Qed.

Lemma py_round_between (a b : Z) (x : Q) (n : nat) :
  inject_Z a <= x <= inject_Z b ->
  inject_Z a <= py_round x n <= inject_Z b.
Proof.
  intros [Ha Hb]. unfold py_round.
  set (p := (10 ^ Z.of_nat n)%Z).
  assert (0 < p)%Z as Hp by (apply Z.pow_pos_nonneg; lia).
  assert (0 < inject_Z p) as Hq.
  { change 0 with (inject_Z 0). now rewrite <- Zlt_Qlt. }
  destruct (round_half_even_between (a * p) (b * p) (x * inject_Z p))
    as [Hlo Hhi].
  { rewrite !inject_Z_mult. split; apply Qmult_le_compat_r; lra. }
  rewrite Zle_Qle, inject_Z_mult in Hlo, Hhi.
  split.
  - apply Qle_shift_div_l; [exact Hq | exact Hlo].
  - apply Qle_shift_div_r; [exact Hq | exact Hhi].
Qed.

End RoundFacts.

Module RangeFacts.

Lemma final_score_range (semantic skills experience : Q) :
  0 <= semantic <= 1 -> 0 <= skills <= 1 -> 0 <= experience <= 1 ->
  0 <= compute_final_score semantic skills experience <= 100.
Proof.
  intros Hs Hk He. unfold compute_final_score.
  apply (RoundFacts.py_round_between 0 100).
  unfold SEMANTIC_SIMILARITY_WEIGHT, SKILL_MATCH_WEIGHT,
    EXPERIENCE_MATCH_WEIGHT.
  change (inject_Z 0) with 0. change (inject_Z 100) with 100. lra.
Qed.

Lemma overlap_ratio_range (resume_text jd_text : string) :
  0 <= snd (match_skills resume_text jd_text) <= 1.
Proof.
  unfold match_skills.
  destruct (decide (extract_skills jd_text = ∅)) as [|Hne]; simpl; [lra|].
  unfold len_Q.
  set (matched := extract_skills resume_text ∩ extract_skills jd_text).
  assert (size matched <= size (extract_skills jd_text))%nat as Hle.
  { apply subseteq_size. intros x. unfold matched.
    rewrite elem_of_intersection. tauto. }
  assert (size (extract_skills jd_text) <> 0)%nat as Hpos.
  { intros Hz. apply size_empty_iff in Hz. apply Hne.
    now apply leibniz_equiv. }
  assert (0 < inject_Z (Z.of_nat (size (extract_skills jd_text)))) as Hq.
  { change 0 with (inject_Z 0). rewrite <- Zlt_Qlt. lia. }
  split.
  - apply Qle_shift_div_l; [exact Hq|]. rewrite Qmult_0_l.
    change 0 with (inject_Z 0). rewrite <- Zle_Qle. lia.
  - apply Qle_shift_div_r; [exact Hq|]. rewrite Qmult_1_l.
    rewrite <- Zle_Qle. lia.
Qed.

End RangeFacts.

(** Skill extraction yields vocabulary entries only, and none for a text
    of white space. *)
Theorem extract_skills_in_vocabulary (text : string) :
  extract_skills text ⊆ RECOGNIZED_SKILLS /\
  (Text.all Text.is_space text = true -> extract_skills text = ∅).
Proof.
  split; [apply SkillFacts.extract_skills_vocabulary|].
  intros Hb%TextFacts.is_blank_iff. unfold extract_skills. now rewrite Hb.
Qed.

(** The overlap ratio of [match_skills] lies between 0 and 1. *)
Theorem overlap_ratio_bounds (resume_text jd_text : string) :
  let '(_, _, overlap_ratio) := match_skills resume_text jd_text in
  0 <= overlap_ratio <= 1.
Proof.
  pose proof (RangeFacts.overlap_ratio_range resume_text jd_text) as H.
  now destruct (match_skills resume_text jd_text) as [[matched missing] ratio].
Qed.

(** With the three signals between 0 and 1 the final score lies between
    0 and 100. *)
Theorem final_score_bounds (semantic skills experience : Q) :
  0 <= semantic <= 1 -> 0 <= skills <= 1 -> 0 <= experience <= 1 ->
  0 <= compute_final_score semantic skills experience <= 100.
Proof. apply RangeFacts.final_score_range. Qed.

Lemma final_score_bounds_witness :
  0 <= 85 # 100 <= 1 /\ 0 <= 75 # 100 <= 1 /\ 0 <= 1 <= 1 /\
  0 <= compute_final_score (85 # 100) (75 # 100) 1 <= 100.
Proof.
  assert (0 <= 85 # 100 <= 1) as Hs by (split; discriminate).
  assert (0 <= 75 # 100 <= 1) as Hk by (split; discriminate).
  assert (0 <= 1 <= 1) as He by (split; discriminate).
  split; [exact Hs|]. split; [exact Hk|]. split; [exact He|].
  exact (final_score_bounds (85 # 100) (75 # 100) 1 Hs Hk He).
Defined.

(** The one-letter vocabulary entries are found inside words: a text with
    the letter r (c) in it, in either case, yields the skill "r" ("c"). *)
Theorem one_letter_skills_inside_words (text : string) :
  (Text.contains "r" (Text.lower text) = true -> "r" ∈ extract_skills text) /\
  (Text.contains "c" (Text.lower text) = true -> "c" ∈ extract_skills text).
Proof.
  split; intros Hin;
    (apply EmptyResumeFacts.mentioned_skill_extracted;
     [apply SkillFacts.elem_of_vocabulary | | | exact Hin]; reflexivity).
Qed.

(** The examples of the [extract_skills] docstring: the code finds "c"
    and "r" inside "Experienced", "Docker", "Machine" and "Expert". *)
Example extract_skills_docstring :
  sorted (extract_skills "Experienced with Python, Docker, and Machine Learning")
  = ["c"; "docker"; "machine learning"; "python"; "r"] /\
  sorted (extract_skills "Expert in basket weaving") = ["r"].
Proof. vm_compute. auto. Qed.

(** Under the embedder's contract every field of the result is in its
    range: the fit score between 0 and 100, the two reported scores
    between 0 and 1. *)
Theorem evaluate_result_ranges
    (encode : list string -> ndarray) (cosine : list Q -> list Q -> Q)
    (dim : nat) (resume_text jd_text : string) :
  (0 < dim)%nat ->
  (forall batch, batch <> [] -> shape (encode batch) = [length batch; dim]) ->
  exists r,
    evaluate encode cosine resume_text jd_text = Ok r /\
    0 <= fit_score r <= 100 /\
    0 <= semantic_similarity_score r <= 1 /\
    0 <= experience_match_score r <= 1.
Proof.
  intros Hdim Hshape.
  assert (valid_embeddings (encode (_tokenize_into_sentences jd_text))
                           (encode (_tokenize_into_sentences resume_text)))
    as Hvalid
    by (apply (SimilarityFacts.contract_valid encode dim);
        auto using TokenFacts.tokenize_not_nil).
  destruct (SimilarityFacts.average_max_valid cosine _ _ Hvalid)
    as (maxima & _ & Hok).
  unfold evaluate. rewrite Hok. simpl.
  pose proof (RangeFacts.overlap_ratio_range resume_text jd_text) as Hratio.
  destruct (match_skills resume_text jd_text) as [[matched missing] ratio].
  simpl in Hratio.
  pose proof (SimilarityFacts.clip_bounds (mean maxima)) as Hsem.
  pose proof (ScoreFacts.experience_score_bounds resume_text jd_text) as Hexp.
  eexists. split; [reflexivity|]. simpl.
  split; [now apply RangeFacts.final_score_range|].
  split; [apply (RoundFacts.py_round_between 0 1); exact Hsem|].
  apply (RoundFacts.py_round_between 0 1); exact Hexp.
Qed.

Lemma evaluate_result_ranges_witness :
  (0 < 1)%nat /\
  (forall batch, batch <> [] ->
     shape (constant_encode batch) = [length batch; 1%nat]) /\
  exists r,
    evaluate constant_encode dot "Python, 3 years" "Python. 5+ years." = Ok r /\
    0 <= fit_score r <= 100 /\
    0 <= semantic_similarity_score r <= 1 /\
    0 <= experience_match_score r <= 1.
Proof.
  assert (forall batch : list string, batch <> [] ->
            shape (constant_encode batch) = [length batch; 1%nat]) as Hshape
    by reflexivity.
  split; [lia|]. split; [exact Hshape|].
  exact (evaluate_result_ranges constant_encode dot 1
           "Python, 3 years" "Python. 5+ years." (le_n 1) Hshape).
Defined.

(** * The program in binary64: properties *)

(** ** Rounding to the nearest integer *)

Module NearestFacts.

(** What [round_half_even] returns: an integer at most one half away, and
    an even one when it is exactly one half away. *)
Lemma round_half_even_spec (x : Q) :
  let n := round_half_even x in
  Qabs (inject_Z n - x) <= 1 # 2 /\
  (Qabs (inject_Z n - x) == 1 # 2 -> Z.even n = true).
Proof.
  intros n. split; [apply ScoreFacts.round_half_even_close|].
  subst n. unfold round_half_even.
  pose proof (Qfloor_le x) as Hlo. pose proof (Qlt_floor x) as Hhi.
  rewrite inject_Z_plus in Hhi. change (inject_Z 1) with 1 in Hhi.
  destruct (Qcompare_spec (x - inject_Z (Qfloor x)) (1 # 2)) as [He | Hl | Hg].
  - destruct (Z.even (Qfloor x)) eqn:Hev; intros _; [exact Hev|].
    rewrite Z.even_add, Hev. reflexivity.
  - intros Hd. exfalso. revert Hd. apply Qabs_case; intros; lra.
  - rewrite inject_Z_plus. change (inject_Z 1) with 1.
    intros Hd. exfalso. revert Hd. apply Qabs_case; intros; lra.
Qed.

(** There is one such integer. *)
Lemma round_half_even_unique (x : Q) (n : Z) :
  Qabs (inject_Z n - x) <= 1 # 2 ->
  (Qabs (inject_Z n - x) == 1 # 2 -> Z.even n = true) ->
  n = round_half_even x.
Proof.
  intros Hn Hev. destruct (round_half_even_spec x) as [Hm Hmev].
  set (m := round_half_even x) in *.
  apply Qabs_Qle_condition in Hn, Hm.
  assert (n <= m + 1)%Z as H1
    by (rewrite Zle_Qle, inject_Z_plus; change (inject_Z 1) with 1; lra).
  assert (m <= n + 1)%Z as H2
    by (rewrite Zle_Qle, inject_Z_plus; change (inject_Z 1) with 1; lra).
  destruct (Z.eq_dec n m) as [|Hne]; [assumption|]. exfalso.
  assert (n = m + 1 \/ m = n + 1)%Z as [-> | ->] by lia.
  - rewrite inject_Z_plus in *. change (inject_Z 1) with 1 in *.
    assert (Z.even (m + 1) = true) as E1.
    { apply Hev. rewrite Qabs_pos by lra. lra. }
    assert (Z.even m = true) as E2.
    { apply Hmev. rewrite Qabs_neg by lra. lra. }
    rewrite Z.even_add, E2 in E1. discriminate.
  - rewrite inject_Z_plus in *. change (inject_Z 1) with 1 in *.
    assert (Z.even (n + 1) = true) as E1.
    { apply Hmev. rewrite Qabs_pos by lra. lra. }
    assert (Z.even n = true) as E2.
    { apply Hev. rewrite Qabs_neg by lra. lra. }
    rewrite Z.even_add, E2 in E1. discriminate.
Qed.

Lemma round_half_even_opp (x : Q) :
  round_half_even (- x) = (- round_half_even x)%Z.
Proof.
  symmetry. apply round_half_even_unique.
  - destruct (round_half_even_spec x) as [H _].
    rewrite inject_Z_opp.
    assert (- inject_Z (round_half_even x) - - x
            == - (inject_Z (round_half_even x) - x)) as -> by ring.
    now rewrite Qabs_opp.
  - destruct (round_half_even_spec x) as [_ H].
    rewrite inject_Z_opp.
    assert (- inject_Z (round_half_even x) - - x
            == - (inject_Z (round_half_even x) - x)) as -> by ring.
    rewrite Qabs_opp, Z.even_opp. exact H.
Qed.

Lemma round_half_even_Z (n : Z) : round_half_even (inject_Z n) = n.
Proof.
  symmetry. apply round_half_even_unique.
  - assert (inject_Z n - inject_Z n == 0) as -> by ring. discriminate.
  - assert (inject_Z n - inject_Z n == 0) as -> by ring. discriminate.
Qed.

Lemma round_half_even_range (x : Q) :
  (Qfloor x <= round_half_even x <= Qfloor x + 1)%Z.
Proof.
  unfold round_half_even.
  destruct (Qcompare _ _); [destruct (Z.even _)|..]; lia.
Qed.

Lemma round_half_even_mono (x y : Q) :
  x <= y -> (round_half_even x <= round_half_even y)%Z.
Proof.
  intros Hxy. pose proof (Qfloor_resp_le x y Hxy) as Hf.
  pose proof (round_half_even_range x) as Hx.
  pose proof (round_half_even_range y) as Hy.
  destruct (Z.eq_dec (Qfloor x) (Qfloor y)) as [Heq | Hne]; [|lia].
  clear Hx Hy Hf. unfold round_half_even. rewrite <- Heq.
  destruct (Qcompare_spec (x - inject_Z (Qfloor x)) (1 # 2));
    destruct (Qcompare_spec (y - inject_Z (Qfloor x)) (1 # 2));
    try (destruct (Z.even (Qfloor x))); try lia; exfalso; lra.
Qed.

End NearestFacts.

(** ** Binary64 *)

Module Float64Facts.
Import Binary64 NearestFacts.

(** *** Powers of two *)

Lemma pow2_pos (e : Z) : 0 < pow2 e.
Proof. apply Qpower_0_lt. reflexivity. Qed.

Lemma pow2_add (a b : Z) : pow2 (a + b) == pow2 a * pow2 b.
Proof. apply Qpower_plus. discriminate. Qed.

Lemma pow2_le (a b : Z) : (a <= b)%Z -> pow2 a <= pow2 b.
Proof. intros H. apply Qpower_le_compat_l; [exact H | discriminate]. Qed.

Lemma pow2_lt (a b : Z) : (a < b)%Z -> pow2 a < pow2 b.
Proof. intros H. apply Qpower_lt_compat_l; [exact H | reflexivity]. Qed.

Lemma pow2_lt_inv (a b : Z) : pow2 a < pow2 b -> (a < b)%Z.
Proof.
  intros H. destruct (Z_lt_le_dec a b) as [|Hba]; [assumption|].
  apply pow2_le in Hba. lra.
Qed.

Lemma pow2_Z (e : Z) : (0 <= e)%Z -> pow2 e == inject_Z (2 ^ e).
Proof. intros H. unfold pow2. now rewrite Zpower_Qpower. Qed.

Lemma pow2_sub (a b : Z) : pow2 (a - b) == pow2 a / pow2 b.
Proof.
  unfold Z.sub. rewrite pow2_add. unfold pow2 at 2.
  rewrite Qpower_opp. reflexivity.
Qed.

(** *** The binade of a number *)

Lemma ilog2_spec (x : Q) :
  0 < x -> pow2 (ilog2 x) <= x /\ x < pow2 (ilog2 x + 1).
Proof.
  intros Hx. destruct x as [n d]. unfold ilog2. cbn [Qnum Qden].
  assert (0 < n)%Z as Hn by (unfold Qlt in Hx; simpl in Hx; lia).
  destruct (Z.log2_spec n Hn) as [Hn1 Hn2].
  destruct (Z.log2_spec (Zpos d) ltac:(lia)) as [Hd1 Hd2].
  pose proof (Z.log2_nonneg n) as Ha. pose proof (Z.log2_nonneg (Zpos d)) as Hb.
  set (a := Z.log2 n) in *. set (b := Z.log2 (Zpos d)) in *.
  assert (n # d == inject_Z n / inject_Z (Zpos d)) as Hq by apply Qmake_Qdiv.
  assert (0 < inject_Z (Zpos d)) as Hdpos by (unfold Qlt; simpl; lia).
  assert (pow2 a <= inject_Z n) as Qn1
    by (rewrite pow2_Z by lia; now rewrite <- Zle_Qle).
  assert (inject_Z n < pow2 (a + 1)) as Qn2.
  { rewrite pow2_Z by lia. rewrite <- Zlt_Qlt.
    replace (a + 1)%Z with (Z.succ a) by lia. exact Hn2. }
  assert (pow2 b <= inject_Z (Zpos d)) as Qd1
    by (rewrite pow2_Z by lia; now rewrite <- Zle_Qle).
  assert (inject_Z (Zpos d) < pow2 (b + 1)) as Qd2.
  { rewrite pow2_Z by lia. rewrite <- Zlt_Qlt.
    replace (b + 1)%Z with (Z.succ b) by lia. exact Hd2. }
  pose proof (pow2_pos a) as Pa. pose proof (pow2_pos b) as Pb.
  pose proof (pow2_pos (a - b)) as Pk.
  assert (pow2 (a + 1) == 2 * pow2 a) as Ea
    by (rewrite pow2_add; change (pow2 1) with 2; ring).
  assert (pow2 (b + 1) == 2 * pow2 b) as Eb
    by (rewrite pow2_add; change (pow2 1) with 2; ring).
  assert (pow2 a == pow2 (a - b) * pow2 b) as Eab.
  { rewrite <- pow2_add. now replace (a - b + b)%Z with a by lia. }
  assert (pow2 (a - b + 1) == 2 * pow2 (a - b)) as Ek1
    by (rewrite pow2_add; change (pow2 1) with 2; ring).
  assert (pow2 (a - b) == 2 * pow2 (a - b - 1)) as Ek2.
  { replace (a - b)%Z with (a - b - 1 + 1)%Z at 1 by lia.
    rewrite pow2_add. change (pow2 1) with 2. ring. }
  (* x lies strictly between the powers k - 1 and k + 1 *)
  assert (pow2 (a - b - 1) < n # d /\ n # d < pow2 (a - b + 1)) as [Lo Hi].
  { rewrite Hq. split.
    - apply Qlt_shift_div_l; [exact Hdpos|]. nra.
    - apply Qlt_shift_div_r; [exact Hdpos|]. nra. }
  destruct (Qle_bool (pow2 (a - b)) (n # d)) eqn:Hcmp.
  - apply Qle_bool_iff in Hcmp. split; [exact Hcmp | exact Hi].
  - assert (~ pow2 (a - b) <= n # d) as Hlt
      by (rewrite <- Qle_bool_iff; congruence).
    apply Qnot_le_lt in Hlt. split; [now apply Qlt_le_weak|].
    now replace (a - b - 1 + 1)%Z with (a - b)%Z by lia.
Qed.

Lemma binade_unique (x : Q) (e e' : Z) :
  pow2 e <= x -> x < pow2 (e + 1) ->
  pow2 e' <= x -> x < pow2 (e' + 1) -> e = e'.
Proof.
  intros H1 H2 H3 H4.
  assert (e < e' + 1)%Z by (apply pow2_lt_inv; lra).
  assert (e' < e + 1)%Z by (apply pow2_lt_inv; lra).
  lia.
Qed.

Lemma ilog2_unique (x : Q) (e : Z) :
  pow2 e <= x -> x < pow2 (e + 1) -> ilog2 x = e.
Proof.
  intros H1 H2. pose proof (pow2_pos e) as He.
  destruct (ilog2_spec x ltac:(lra)) as [H3 H4].
  now apply (binade_unique x).
Qed.

Lemma ilog2_proper (x y : Q) : 0 < x -> x == y -> ilog2 x = ilog2 y.
Proof.
  intros Hx Hxy. destruct (ilog2_spec x Hx) as [H1 H2].
  symmetry. apply ilog2_unique; now rewrite <- Hxy.
Qed.

Lemma ilog2_mono (x y : Q) : 0 < x -> x <= y -> (ilog2 x <= ilog2 y)%Z.
Proof.
  intros Hx Hxy. destruct (ilog2_spec x Hx) as [H1 _].
  destruct (ilog2_spec y ltac:(lra)) as [_ H2].
  assert (ilog2 x < ilog2 y + 1)%Z by (apply pow2_lt_inv; lra). lia.
Qed.

Lemma ilog2_pow2 (e : Z) : ilog2 (pow2 e) = e.
Proof.
  apply ilog2_unique; [apply Qle_refl | apply pow2_lt; lia].
Qed.


(** *** Rounding to a multiple of the spacing *)

(** The exponent of the spacing at [x]. *)
Definition cexp (x : Q) : Z := Z.max (ilog2 (Qabs x) - 52) (-1074).

Lemma ulp_cexp (x : Q) : ulp x = pow2 (cexp x).
Proof. reflexivity. Qed.

Lemma ulp_pos (x : Q) : 0 < ulp x.
Proof. apply pow2_pos. Qed.

Lemma Qnum_zero_iff (x : Q) : Qnum x = 0%Z <-> x == 0.
Proof. unfold Qeq. simpl. lia. Qed.

Lemma nearest_zero (x : Q) : x == 0 -> nearest x = 0.
Proof. intros H%Qnum_zero_iff. unfold nearest. now rewrite H. Qed.

Lemma nearest_unfold (x : Q) :
  ~ x == 0 -> nearest x = inject_Z (round_half_even (x / ulp x)) * ulp x.
Proof.
  intros H. unfold nearest.
  destruct (Qnum x) eqn:Hn; [|reflexivity..].
  now apply Qnum_zero_iff in Hn.
Qed.

Lemma Qabs_pos_iff (x : Q) : ~ x == 0 -> 0 < Qabs x.
Proof. intros H. apply Qabs_case; intros; lra. Qed.

Lemma cexp_proper (x y : Q) : ~ x == 0 -> x == y -> cexp x = cexp y.
Proof.
  intros Hx Hxy. unfold cexp.
  rewrite (ilog2_proper (Qabs x) (Qabs y)); [reflexivity | |].
  - now apply Qabs_pos_iff.
  - now rewrite Hxy.
Qed.

Lemma cexp_opp (x : Q) : ~ x == 0 -> cexp (- x) = cexp x.
Proof.
  intros Hx. unfold cexp.
  rewrite (ilog2_proper (Qabs (- x)) (Qabs x)); [reflexivity | |].
  - apply Qabs_pos_iff. lra.
  - apply Qabs_opp.
Qed.

Lemma nearest_proper (x y : Q) : x == y -> nearest x == nearest y.
Proof.
  intros Hxy. destruct (Qeq_dec x 0) as [Hz | Hnz].
  - rewrite (nearest_zero x Hz), (nearest_zero y); [reflexivity|].
    now rewrite <- Hxy.
  - assert (~ y == 0) as Hy by now rewrite <- Hxy.
    rewrite (nearest_unfold x Hnz), (nearest_unfold y Hy), !ulp_cexp.
    rewrite (cexp_proper x y Hnz Hxy).
    rewrite (ScoreFacts.round_half_even_proper (x / pow2 (cexp y))
               (y / pow2 (cexp y))); [reflexivity|].
    now rewrite Hxy.
Qed.

Lemma nearest_opp (x : Q) : nearest (- x) == - nearest x.
Proof.
  destruct (Qeq_dec x 0) as [Hz | Hnz].
  - rewrite (nearest_zero x Hz), (nearest_zero (- x)); [reflexivity|].
    rewrite Hz. reflexivity.
  - assert (~ - x == 0) as Hy by lra.
    rewrite (nearest_unfold x Hnz), (nearest_unfold _ Hy), !ulp_cexp.
    rewrite (cexp_opp x Hnz).
    rewrite (ScoreFacts.round_half_even_proper (- x / pow2 (cexp x))
               (- (x / pow2 (cexp x)))).
    + rewrite round_half_even_opp, inject_Z_opp. ring.
    + unfold Qdiv. ring.
Qed.

(** An integer bound on the scaled number is a bound on the rounded
    one. *)
Lemma nearest_le_pow2 (x : Q) (k : Z) :
  ~ x == 0 -> x <= pow2 k -> (cexp x <= k)%Z -> nearest x <= pow2 k.
Proof.
  intros Hnz Hx Hc. rewrite (nearest_unfold x Hnz), ulp_cexp.
  pose proof (pow2_pos (cexp x)) as Hu.
  assert (pow2 k == inject_Z (2 ^ (k - cexp x)) * pow2 (cexp x)) as ->.
  { rewrite <- pow2_Z by lia. rewrite <- pow2_add.
    now replace (k - cexp x + cexp x)%Z with k by lia. }
  apply Qmult_le_compat_r; [|lra].
  rewrite <- Zle_Qle.
  rewrite <- (round_half_even_Z (2 ^ (k - cexp x))).
  apply round_half_even_mono. apply Qle_shift_div_r; [exact Hu|].
  rewrite <- pow2_Z by lia. rewrite <- pow2_add.
  now replace (k - cexp x + cexp x)%Z with k by lia.
Qed.

Lemma nearest_ge_pow2 (x : Q) (k : Z) :
  pow2 k <= x -> (cexp x <= k)%Z -> pow2 k <= nearest x.
Proof.
  intros Hx Hc. pose proof (pow2_pos k) as Hk.
  rewrite (nearest_unfold x) by lra. rewrite ulp_cexp.
  pose proof (pow2_pos (cexp x)) as Hu.
  assert (pow2 k == inject_Z (2 ^ (k - cexp x)) * pow2 (cexp x)) as ->.
  { rewrite <- pow2_Z by lia. rewrite <- pow2_add.
    now replace (k - cexp x + cexp x)%Z with k by lia. }
  apply Qmult_le_compat_r; [|lra].
  rewrite <- Zle_Qle.
  rewrite <- (round_half_even_Z (2 ^ (k - cexp x))) at 1.
  apply round_half_even_mono. apply Qle_shift_div_l; [exact Hu|].
  rewrite <- pow2_Z by lia. rewrite <- pow2_add.
  now replace (k - cexp x + cexp x)%Z with k by lia.
Qed.

Lemma nearest_nonneg (x : Q) : 0 <= x -> 0 <= nearest x.
Proof.
  intros Hx. destruct (Qeq_dec x 0) as [Hz | Hnz].
  - rewrite (nearest_zero x Hz). apply Qle_refl.
  - rewrite (nearest_unfold x Hnz). pose proof (ulp_pos x) as Hu.
    apply Qmult_le_0_compat; [|lra].
    change 0 with (inject_Z 0). rewrite <- Zle_Qle.
    rewrite <- (round_half_even_Z 0). apply round_half_even_mono.
    apply Qle_shift_div_l; [exact Hu|]. change (inject_Z 0) with 0. lra.
Qed.

Lemma cexp_pos (x : Q) : 0 < x -> cexp x = Z.max (ilog2 x - 52) (-1074).
Proof.
  intros Hx. unfold cexp.
  rewrite (ilog2_proper (Qabs x) x); [reflexivity | |].
  - apply Qabs_pos_iff. lra.
  - apply Qabs_pos. lra.
Qed.

Lemma nearest_mono_pos (x y : Q) :
  0 < x -> x <= y -> nearest x <= nearest y.
Proof.
  intros Hx Hxy.
  pose proof (ilog2_mono x y Hx Hxy) as He.
  destruct (ilog2_spec x Hx) as [Hx1 Hx2].
  destruct (ilog2_spec y ltac:(lra)) as [Hy1 Hy2].
  pose proof (cexp_pos x Hx) as Hcx.
  pose proof (cexp_pos y ltac:(lra)) as Hcy.
  destruct (Z.eq_dec (cexp x) (cexp y)) as [Heq | Hne].
  - rewrite (nearest_unfold x), (nearest_unfold y) by lra.
    rewrite !ulp_cexp, Heq. pose proof (pow2_pos (cexp y)) as Hu.
    apply Qmult_le_compat_r; [|lra].
    rewrite <- Zle_Qle. apply round_half_even_mono.
    apply Qmult_le_compat_r; [exact Hxy|].
    apply Qlt_le_weak, Qinv_lt_0_compat, Hu.
  - assert (ilog2 x < ilog2 y)%Z as Hlt by lia.
    apply Qle_trans with (pow2 (ilog2 y)).
    + apply nearest_le_pow2; [lra | | lia].
      apply Qle_trans with (pow2 (ilog2 x + 1)); [lra|].
      apply pow2_le. lia.
    + apply nearest_ge_pow2; [exact Hy1 | lia].
Qed.

Lemma nearest_mono (x y : Q) : x <= y -> nearest x <= nearest y.
Proof.
  intros Hxy.
  destruct (Qlt_le_dec 0 x) as [Hx | Hx]; [now apply nearest_mono_pos|].
  destruct (Qlt_le_dec y 0) as [Hy | Hy].
  - assert (nearest (- y) <= nearest (- x)) as H
      by (apply nearest_mono_pos; lra).
    rewrite !nearest_opp in H. lra.
  - pose proof (nearest_nonneg y Hy) as H1.
    pose proof (nearest_nonneg (- x) ltac:(lra)) as H2.
    rewrite nearest_opp in H2. lra.
Qed.

Lemma nearest_error (x : Q) : Qabs (nearest x - x) <= ulp x * (1 # 2).
Proof.
  pose proof (ulp_pos x) as Hu.
  destruct (Qeq_dec x 0) as [Hz | Hnz].
  - rewrite (nearest_zero x Hz). apply Qabs_Qle_condition. lra.
  - rewrite (nearest_unfold x Hnz).
    pose proof (ScoreFacts.round_half_even_close (x / ulp x)) as H.
    apply Qabs_Qle_condition in H. apply Qabs_Qle_condition.
    assert (x == x / ulp x * ulp x) as Hx by (field; lra).
    revert H Hx. generalize (inject_Z (round_half_even (x / ulp x))).
    generalize (x / ulp x). revert Hu. generalize (ulp x).
    intros u Hu t n H Hx. nra.
Qed.

Lemma nearest_pow2 (k : Z) : (-1074 <= k)%Z -> nearest (pow2 k) == pow2 k.
Proof.
  intros Hk. pose proof (pow2_pos k) as Hp.
  assert (cexp (pow2 k) <= k)%Z as Hc.
  { rewrite (cexp_pos _ Hp), ilog2_pow2. lia. }
  apply Qle_antisym.
  - apply nearest_le_pow2; [lra | apply Qle_refl | exact Hc].
  - apply nearest_ge_pow2; [apply Qle_refl | exact Hc].
Qed.

(** The spacing at a number below [2 ** k]. *)
Lemma cexp_le (x : Q) (k : Z) :
  ~ x == 0 -> Qabs x <= pow2 k -> (cexp x <= Z.max (k - 52) (-1074))%Z.
Proof.
  intros Hnz Hx. unfold cexp.
  destruct (ilog2_spec (Qabs x) (Qabs_pos_iff x Hnz)) as [H1 _].
  assert (ilog2 (Qabs x) < k + 1)%Z; [|lia].
  apply pow2_lt_inv. pose proof (pow2_lt k (k + 1) ltac:(lia)). lra.
Qed.

Lemma nearest_abs_le (x : Q) (k : Z) :
  (-1074 <= k)%Z -> Qabs x <= pow2 k -> Qabs (nearest x) <= pow2 k.
Proof.
  intros Hk Hx. apply Qabs_Qle_condition in Hx. apply Qabs_Qle_condition.
  pose proof (nearest_pow2 k Hk) as Hp.
  pose proof (nearest_mono x (pow2 k) ltac:(lra)) as H1.
  pose proof (nearest_mono (- pow2 k) x ltac:(lra)) as H2.
  rewrite nearest_opp in H2. lra.
Qed.


(** *** Rounding to a float *)

Lemma round64_proper (x y : Q) : x == y -> round64 x = round64 y.
Proof. intros H. unfold round64. now rewrite (Qred_complete x y H). Qed.

Lemma nearest_Qred (x : Q) : nearest (Qred x) == nearest x.
Proof. apply nearest_proper, Qred_correct. Qed.

(** The three outcomes of rounding. *)
Lemma round64_cases (x : Q) :
  (pow2 1024 <= nearest x /\ round64 x = Infinity false) \/
  (nearest x <= - pow2 1024 /\ round64 x = Infinity true) \/
  (Qabs (nearest x) < pow2 1024 /\
   exists v, round64 x = Finite v /\ v == nearest x /\ Qred v = v).
Proof.
  unfold round64. pose proof (nearest_Qred x) as Hr.
  pose proof (pow2_pos 1024) as Hp.
  set (r := nearest (Qred x)) in *.
  destruct (Qle_bool (pow2 1024) (Qabs r)) eqn:Hover.
  - apply Qle_bool_iff in Hover.
    destruct (Qle_bool 0 r) eqn:Hsign; cbn [negb].
    + apply Qle_bool_iff in Hsign. left. split; [|reflexivity].
      rewrite Qabs_pos in Hover by exact Hsign. lra.
    + assert (~ 0 <= r) as Hneg by (rewrite <- Qle_bool_iff; congruence).
      right. left. split; [|reflexivity].
      rewrite Qabs_neg in Hover by lra. lra.
  - assert (~ pow2 1024 <= Qabs r) as Hfin
      by (rewrite <- Qle_bool_iff; congruence).
    apply Qnot_le_lt in Hfin.
    right. right. split; [now rewrite <- Hr|].
    exists (Qred r). split; [reflexivity|]. split.
    + rewrite Qred_correct. exact Hr.
    + apply Qred_complete, Qred_correct.
Qed.

Lemma round64_mono (x y : Q) :
  x <= y -> fle (round64 x) (round64 y) = true.
Proof.
  intros Hxy. pose proof (nearest_mono x y Hxy) as Hn.
  pose proof (pow2_pos 1024) as Hp.
  destruct (round64_cases x) as [[Hx ->] | [[Hx ->] | (Hx & vx & -> & Ex & _)]];
    destruct (round64_cases y)
      as [[Hy ->] | [[Hy ->] | (Hy & vy & -> & Ey & _)]];
    simpl; try reflexivity; try (exfalso; lra).
  - exfalso. apply Qabs_Qlt_condition in Hy. lra.
  - exfalso. apply Qabs_Qlt_condition in Hx. lra.
  - apply Qle_bool_iff. lra.
Qed.

Lemma round64_finite (x : Q) (k : Z) :
  (-1074 <= k <= 1023)%Z -> Qabs x <= pow2 k ->
  exists v,
    round64 x = Finite v /\ v == nearest x /\ Qred v = v /\
    Qabs v <= pow2 k /\
    Qabs (v - x) <= pow2 (Z.max (k - 52) (-1074)) * (1 # 2).
Proof.
  intros Hk Hx.
  pose proof (nearest_abs_le x k ltac:(lia) Hx) as Hn.
  pose proof (pow2_lt k 1024 ltac:(lia)) as Hlt.
  destruct (round64_cases x) as [[Ho _] | [[Ho _] | (_ & v & Hv & Ev & Hred)]].
  - exfalso. apply Qabs_Qle_condition in Hn. lra.
  - exfalso. apply Qabs_Qle_condition in Hn. lra.
  - exists v. split; [exact Hv|]. split; [exact Ev|]. split; [exact Hred|].
    split; [now rewrite Ev|]. rewrite Ev.
    destruct (Qeq_dec x 0) as [Hz | Hnz].
    + rewrite (nearest_zero x Hz).
      pose proof (pow2_pos (Z.max (k - 52) (-1074))).
      apply Qabs_Qle_condition. lra.
    + apply Qle_trans with (ulp x * (1 # 2)); [apply nearest_error|].
      rewrite ulp_cexp.
      pose proof (pow2_le _ _ (cexp_le x k Hnz Hx)). lra.
Qed.

Lemma round64_nonneg (x : Q) : 0 <= x -> fle (Finite 0) (round64 x) = true.
Proof.
  intros Hx. change (Finite 0) with (round64 0). now apply round64_mono.
Qed.

(** *** The order of floats *)

Lemma fle_refl (x : float) : is_nan x = false -> fle x x = true.
Proof.
  destruct x as [q | [] |]; simpl; try done. intros _.
  apply Qle_bool_iff, Qle_refl.
Qed.

Lemma fle_trans (x y z : float) :
  fle x y = true -> fle y z = true -> fle x z = true.
Proof.
  destruct x as [a | [] |], y as [b | [] |], z as [c | [] |]; simpl;
    try done.
  rewrite !Qle_bool_iff. apply Qle_trans.
Qed.

Lemma fle_not_nan (x y : float) :
  fle x y = true -> is_nan x = false /\ is_nan y = false.
Proof. destruct x as [a | [] |], y as [b | [] |]; simpl; done. Qed.

Lemma flt_not_nan (x y : float) :
  flt x y = true -> is_nan x = false /\ is_nan y = false.
Proof. destruct x as [a | [] |], y as [b | [] |]; simpl; done. Qed.

Lemma flt_fle (x y : float) : flt x y = true -> fle x y = true.
Proof.
  destruct x as [a | [] |], y as [b | [] |]; simpl; try done.
  intros H. apply negb_true_iff in H. apply Qle_bool_iff.
  assert (~ b <= a) by (rewrite <- Qle_bool_iff; congruence). lra.
Qed.

(** Two floats that are not NaN compare one way or the other. *)
Lemma flt_false (x y : float) :
  is_nan x = false -> is_nan y = false -> flt x y = false -> fle y x = true.
Proof.
  destruct x as [a | [] |], y as [b | [] |]; simpl; try done.
  intros _ _ H. now apply negb_false_iff in H.
Qed.

Lemma flt_fle_trans (x y z : float) :
  flt x y = true -> fle y z = true -> flt x z = true.
Proof.
  destruct x as [a | [] |], y as [b | [] |], z as [c | [] |]; simpl;
    try done.
  rewrite !negb_true_iff. intros H1 H2%Qle_bool_iff.
  destruct (Qle_bool c a) eqn:E; [|reflexivity].
  apply Qle_bool_iff in E.
  assert (b <= a) as H%Qle_bool_iff by lra. congruence.
Qed.



(** *** [max] of a list of floats *)

Lemma py_max_cases (x y : float) :
  is_nan x = false -> is_nan y = false ->
  (py_max x y = x \/ py_max x y = y) /\
  fle x (py_max x y) = true /\ fle y (py_max x y) = true.
Proof.
  intros Hx Hy. unfold py_max. destruct (flt x y) eqn:Hlt.
  - split; [now right|]. split; [now apply flt_fle | now apply fle_refl].
  - split; [now left|]. split; [now apply fle_refl | now apply flt_false].
Qed.

Lemma fold_py_max_spec (l : list float) (x : float) :
  (forall y, In y (x :: l) -> is_nan y = false) ->
  In (fold_left py_max l x) (x :: l) /\
  (forall y, In y (x :: l) -> fle y (fold_left py_max l x) = true).
Proof.
  revert x. induction l as [|z l IH]; intros x Hnan; simpl.
  - split; [now left|]. intros y [<- | []]. apply fle_refl, Hnan. now left.
  - destruct (py_max_cases x z) as ([Hm | Hm] & Hx & Hz);
      try (apply Hnan; simpl; auto).
    + destruct (IH (py_max x z)) as [Hin Hle].
      { intros y [<- | Hy]; [rewrite Hm|]; apply Hnan; simpl; auto. }
      split.
      * destruct Hin as [Hin | Hin]; [left; congruence | auto].
      * intros y [<- | [<- | Hy]].
        -- apply fle_trans with (py_max x z); [exact Hx|].
           apply Hle. now left.
        -- apply fle_trans with (py_max x z); [exact Hz|].
           apply Hle. now left.
        -- apply Hle. now right.
    + destruct (IH (py_max x z)) as [Hin Hle].
      { intros y [<- | Hy]; [rewrite Hm|]; apply Hnan; simpl; auto. }
      split.
      * destruct Hin as [Hin | Hin]; [right; left; congruence | auto].
      * intros y [<- | [<- | Hy]].
        -- apply fle_trans with (py_max x z); [exact Hx|].
           apply Hle. now left.
        -- apply fle_trans with (py_max x z); [exact Hz|].
           apply Hle. now left.
        -- apply Hle. now right.
Qed.

(** *** The years of a text *)

Lemma decimal_value_nonneg (s : string) : 0 <= decimal_value s.
Proof. apply ScoreFacts.float_of_numeral_nonneg. Qed.

Lemma float_of_numeral_nonneg64 (s : string) :
  fle (Finite 0) (float_of_numeral s) = true.
Proof. apply round64_nonneg, decimal_value_nonneg. Qed.

Lemma year_mentions_nonneg (text : string) (x : float) :
  In x (year_mentions text) -> fle (Finite 0) x = true.
Proof.
  unfold year_mentions. intros (s & <- & _)%in_map_iff.
  apply float_of_numeral_nonneg64.
Qed.

Lemma extract_years_maximum64 (text : string) :
  maximum_or_zero (year_mentions text) (_extract_years_of_experience text).
Proof.
  unfold _extract_years_of_experience. fold (year_mentions text).
  pose proof (year_mentions_nonneg text) as Hpos.
  destruct (year_mentions text) as [|x l]; simpl.
  - repeat split; [intros ? [] | congruence].
  - destruct (fold_py_max_spec l x) as [Hin Hle].
    { intros y Hy. now destruct (fle_not_nan _ _ (Hpos y Hy)). }
    repeat split; [discriminate | exact Hle | intros _; exact Hin].
Qed.

Lemma extract_years_nonneg64 (text : string) :
  fle (Finite 0) (_extract_years_of_experience text) = true.
Proof.
  destruct (extract_years_maximum64 text) as (Hnil & _ & Hin).
  destruct (year_mentions text) as [|x l] eqn:Hl.
  - rewrite Hnil by done. reflexivity.
  - apply (year_mentions_nonneg text). rewrite Hl. apply Hin. discriminate.
Qed.

(** A float that is not below zero: a number, or plus infinity. *)
Lemma nonneg_cases (x : float) :
  fle (Finite 0) x = true ->
  (exists q, x = Finite q /\ 0 <= q) \/ x = Infinity false.
Proof.
  destruct x as [q | [] |]; simpl; try done; [|now right].
  intros H%Qle_bool_iff. left. now exists q.
Qed.


(** *** The quotient of the years and its clamping *)

(** A float that rounding returned and that equals a number is that
    number in lowest terms. *)
Lemma round64_eq (x y : Q) (v : Q) :
  round64 x = Finite v -> v == y -> Finite v = Finite (Qred y).
Proof.
  intros Hv Hy.
  destruct (round64_cases x) as [[_ H] | [[_ H] | (_ & w & H & _ & Hred)]];
    rewrite Hv in H; try discriminate.
  injection H as <-. rewrite <- Hred. now rewrite (Qred_complete v y Hy).
Qed.

Lemma round64_one : round64 1 = Finite 1.
Proof. reflexivity. Qed.


(** [max(0.0, min(ratio, 1.0))] *)
Definition clamp (ratio : float) : float :=
  py_max (Finite 0) (py_min ratio (Finite 1)).

Lemma clamp_nan : clamp NaN = Finite 0.
Proof. reflexivity. Qed.

Lemma clamp_above (ratio : float) :
  flt (Finite 1) ratio = true -> clamp ratio = Finite 1.
Proof. intros H. unfold clamp, py_min. now rewrite H. Qed.

(** The floats a quotient of years can be: NaN, plus infinity, or a
    number that is not negative, in lowest terms. *)
Definition ratio_like (x : float) : Prop :=
  match x with
  | Finite q => 0 <= q /\ Qred q = q
  | Infinity negative => negative = false
  | NaN => True
  end.

Lemma clamp_within (ratio : float) :
  ratio_like ratio -> is_nan ratio = false ->
  flt (Finite 1) ratio = false -> clamp ratio = ratio.
Proof.
  destruct ratio as [q | [] |]; simpl; try done. intros [Hq Hred] _ H1.
  unfold clamp, py_min. cbn [flt]. rewrite H1. unfold py_max. cbn [flt].
  destruct (Qle_bool q 0) eqn:H0; cbn [negb]; [|reflexivity].
  apply Qle_bool_iff in H0. assert (q == 0) as Hz by lra.
  rewrite <- Hred. now rewrite (Qred_complete q 0 Hz).
Qed.

Lemma clamp_range (ratio : float) :
  ratio_like ratio ->
  fle (Finite 0) (clamp ratio) = true /\ fle (clamp ratio) (Finite 1) = true.
Proof.
  intros Hlike. destruct (is_nan ratio) eqn:Hnan.
  - destruct ratio; try discriminate. now rewrite clamp_nan.
  - destruct (flt (Finite 1) ratio) eqn:H1.
    + now rewrite (clamp_above ratio H1).
    + rewrite (clamp_within ratio Hlike Hnan H1).
      destruct ratio as [q | [] |]; simpl in *; try done.
      split; [now apply Qle_bool_iff|].
      now apply negb_false_iff in H1.
Qed.

Lemma clamp_mono (x y : float) :
  ratio_like x -> ratio_like y -> fle x y = true ->
  fle (clamp x) (clamp y) = true.
Proof.
  intros Hx Hy Hxy. destruct (fle_not_nan x y Hxy) as [Nx Ny].
  destruct (flt (Finite 1) y) eqn:H1y.
  - rewrite (clamp_above y H1y). apply (clamp_range x Hx).
  - rewrite (clamp_within y Hy Ny H1y).
    assert (flt (Finite 1) x = false) as H1x.
    { destruct (flt (Finite 1) x) eqn:E; [|reflexivity].
      now rewrite (flt_fle_trans _ _ _ E Hxy) in H1y. }
    now rewrite (clamp_within x Hx Nx H1x).
Qed.


Lemma round64_not_nan (x : Q) : is_nan (round64 x) = false.
Proof.
  now destruct (round64_cases x) as [[_ ->] | [[_ ->] | (_ & v & -> & _)]].
Qed.

Lemma round64_ratio_like (x : Q) : 0 <= x -> ratio_like (round64 x).
Proof.
  intros Hx. pose proof (nearest_nonneg x Hx) as Hn.
  pose proof (pow2_pos 1024) as Hp.
  destruct (round64_cases x) as [[_ ->] | [[H _] | (_ & v & -> & Ev & Hred)]];
    simpl; [reflexivity | exfalso; lra |].
  split; [now rewrite Ev | exact Hred].
Qed.

(** The quotient of years that are not negative by years above zero. *)
Lemma fdiv_years (c r : float) :
  fle (Finite 0) c = true -> flt (Finite 0) r = true ->
  exists ratio,
    fdiv c r = Return ratio /\ ratio_like ratio /\
    (is_nan ratio = true <-> c = Infinity false /\ r = Infinity false) /\
    (forall a b, c = Finite a -> r = Finite b -> ratio = round64 (a / b)).
Proof.
  intros Hc Hr. unfold fdiv.
  destruct r as [b | [] |]; simpl in Hr; try discriminate.
  - apply negb_true_iff in Hr.
    assert (~ b <= 0) as Hb by (rewrite <- Qle_bool_iff; congruence).
    apply Qnot_le_lt in Hb.
    assert (Qeq_bool b 0 = false) as Hz.
    { destruct (Qeq_bool b 0) eqn:E; [|reflexivity].
      apply Qeq_bool_iff in E. lra. }
    cbn [is_zero]. rewrite Hz.
    destruct c as [a | [] |]; simpl in Hc; try discriminate.
    + apply Qle_bool_iff in Hc. eexists. split; [reflexivity|].
      assert (0 <= a / b) as Hq.
      { apply Qle_shift_div_l; [exact Hb | lra]. }
      pose proof (round64_ratio_like (a / b) Hq) as Hlike.
      split; [exact Hlike|]. split.
      * split; [|intros [? _]; discriminate].
        now rewrite round64_not_nan.
      * now intros ? ? [= <-] [= <-].
    + eexists. split; [reflexivity|]. cbn [is_negative xorb].
      assert (Qle_bool 0 b = true) as -> by (apply Qle_bool_iff; lra).
      simpl. split; [reflexivity|]. split; [|done].
      split; [done | intros [_ ?]; discriminate].
  - cbn [is_zero]. destruct c as [a | [] |]; simpl in Hc; try discriminate.
    + eexists. split; [reflexivity|]. simpl.
      split; [split; [apply Qle_refl | reflexivity]|].
      split; [|done]. split; [done | intros [? _]; discriminate].
    + eexists. split; [reflexivity|]. simpl. split; [exact I|].
      split; [tauto | done].
Qed.

(** Years that are not at most zero are above zero. *)
Lemma years_positive (text : string) :
  fle (_extract_years_of_experience text) (Finite 0) = false ->
  flt (Finite 0) (_extract_years_of_experience text) = true.
Proof.
  pose proof (extract_years_nonneg64 text) as H.
  destruct (_extract_years_of_experience text) as [q | [] |]; simpl in *;
    try done.
  intros ->. reflexivity.
Qed.

Lemma flt_not_fle (x : float) :
  flt (Finite 0) x = true -> fle x (Finite 0) = false.
Proof.
  destruct x as [q | [] |]; simpl; try done. now intros ->%negb_true_iff.
Qed.

(** The two branches of [compute_experience_score]. *)
Lemma experience_score_cases (resume_text jd_text : string) :
  let c := _extract_years_of_experience resume_text in
  let r := _extract_years_of_experience jd_text in
  (fle r (Finite 0) = true /\
   compute_experience_score resume_text jd_text = Return (Finite 1)) \/
  (fle r (Finite 0) = false /\ flt (Finite 0) r = true /\
   exists ratio,
     fdiv c r = Return ratio /\ ratio_like ratio /\
     (is_nan ratio = true <-> c = Infinity false /\ r = Infinity false) /\
     (forall a b, c = Finite a -> r = Finite b -> ratio = round64 (a / b)) /\
     compute_experience_score resume_text jd_text = Return (clamp ratio)).
Proof.
  intros c r. unfold compute_experience_score. fold c r.
  destruct (fle r (Finite 0)) eqn:Hr; [left; now split|]. right.
  pose proof (years_positive jd_text Hr) as Hpos. fold r in Hpos.
  destruct (fdiv_years c r (extract_years_nonneg64 resume_text) Hpos)
    as (ratio & Hdiv & Hlike & Hnan & Hval).
  split; [reflexivity|]. split; [exact Hpos|].
  exists ratio. rewrite Hdiv. simpl. auto.
Qed.

Lemma clamp_cases (ratio : float) :
  ratio_like ratio ->
  clamp ratio = if is_nan ratio then Finite 0
                else if flt (Finite 1) ratio then Finite 1 else ratio.
Proof.
  intros Hlike. destruct (is_nan ratio) eqn:Hnan.
  - destruct ratio; try discriminate. reflexivity.
  - destruct (flt (Finite 1) ratio) eqn:H1.
    + now apply clamp_above.
    + now apply clamp_within.
Qed.

End Float64Facts.

(** C3, as the code has it, in binary64.  The score is 1.0 when the years
    of the job description are at most zero.  Otherwise the quotient of
    the candidate's years by the required years is taken, which is the
    rounded quotient of the two numbers, and NaN exactly when both are
    infinite; the score is 0.0 for NaN, 1.0 for a quotient above 1.0 and
    the quotient itself otherwise.  The years of a text are the largest
    of the numbers that [re.findall] reports in the lowercased text, 0.0
    when it reports none; each reported number stands in the text
    followed by optional white space, an optional [+], optional white
    space and "year" or "years", and a text in which a number stands that
    way has a number reported.  The years are never below zero, the empty
    text has none, and the score lies between 0 and 1. *)
Theorem experience_score_spec (resume_text jd_text : string) :
  let candidate_years := Binary64._extract_years_of_experience resume_text in
  let required_years := Binary64._extract_years_of_experience jd_text in
  let score := Binary64.compute_experience_score resume_text jd_text in
  (Binary64.fle required_years (Binary64.Finite 0) = true ->
   score = Binary64.Return (Binary64.Finite 1)) /\
  (Binary64.fle required_years (Binary64.Finite 0) = false ->
   exists ratio,
     Binary64.fdiv candidate_years required_years = Binary64.Return ratio /\
     (forall c r,
        candidate_years = Binary64.Finite c ->
        required_years = Binary64.Finite r ->
        ratio = Binary64.round64 (c / r)) /\
     (Binary64.is_nan ratio = true <->
      candidate_years = Binary64.Infinity false /\
      required_years = Binary64.Infinity false) /\
     score = Binary64.Return
               (if Binary64.is_nan ratio then Binary64.Finite 0
                else if Binary64.flt (Binary64.Finite 1) ratio
                     then Binary64.Finite 1
                     else ratio)) /\
  (forall text,
     Binary64.maximum_or_zero (Binary64.year_mentions text)
       (Binary64._extract_years_of_experience text)) /\
  (forall number,
     Binary64.float_of_numeral number
     = Binary64.round64 (Binary64.decimal_value number)) /\
  (forall text number,
     In number (Regex.findall YEARS_PATTERN (Text.lower text)) ->
     exists pre w post,
       Text.lower text = pre +:+ w +:+ post /\ year_mention number w) /\
  (forall text pre w post number,
     Text.lower text = pre +:+ w +:+ post -> year_mention number w ->
     Binary64.year_mentions text <> []) /\
  (forall text,
     Binary64.fle (Binary64.Finite 0)
       (Binary64._extract_years_of_experience text) = true) /\
  Binary64._extract_years_of_experience "" = Binary64.Finite 0 /\
  (exists s,
     score = Binary64.Return s /\
     Binary64.fle (Binary64.Finite 0) s = true /\
     Binary64.fle s (Binary64.Finite 1) = true).
Proof.
  intros c r score.
  pose proof (Float64Facts.experience_score_cases resume_text jd_text) as H.
  cbv zeta in H. fold c r score in H.
  split.
  { intros Hr. destruct H as [[_ H] | [H _]]; [exact H | congruence]. }
  split.
  { intros Hr.
    destruct H as [[H _] | (_ & _ & ratio & Hdiv & Hlike & Hnan & Hval & Hs)];
      [congruence|].
    exists ratio. split; [exact Hdiv|]. split; [exact Hval|].
    split; [exact Hnan|].
    now rewrite <- (Float64Facts.clamp_cases ratio Hlike). }
  split; [apply Float64Facts.extract_years_maximum64|].
  split; [reflexivity|].
  split; [intros text number; apply YearsFacts.year_mentions_sound|].
  split.
  { intros text pre w post number Htext Hmention.
    unfold Binary64.year_mentions. rewrite Htext.
    pose proof (YearsFacts.year_mentions_complete pre w post number Hmention).
    now destruct (Regex.findall _ _). }
  split; [apply Float64Facts.extract_years_nonneg64|].
  split; [reflexivity|].
  destruct H as [[_ H] | (_ & _ & ratio & _ & Hlike & _ & _ & Hs)].
  - exists (Binary64.Finite 1). now rewrite H.
  - exists (Float64Facts.clamp ratio). split; [exact Hs|].
    apply Float64Facts.clamp_range, Hlike.
Qed.

(** C3 as stated fails on "5 + years": the code lets white space stand
    between the number and the [+] and finds 5 years, where the wording
    of the specification finds none; so the code scores an empty resume
    0.0 against this text, where the wording gives 1.0. *)
Lemma years_with_space_before_plus :
  Binary64._extract_years_of_experience "5 + years" = Binary64.Finite 5 /\
  Binary64.extract_years_as_specified "5 + years" = Binary64.Finite 0 /\
  Binary64.compute_experience_score "" "5 + years"
  = Binary64.Return (Binary64.Finite 0) /\
  Binary64.experience_score_as_specified "" "5 + years"
  = Binary64.Return (Binary64.Finite 1) /\
  ~ (forall text,
       Binary64._extract_years_of_experience text
       = Binary64.extract_years_as_specified text).
Proof.
  split; [reflexivity|]. split; [reflexivity|]. split; [reflexivity|].
  split; [reflexivity|].
  intros H. specialize (H "5 + years"). vm_compute in H. discriminate H.
Qed.

(** The examples of the docstrings of [scorer.py], in binary64. *)
Example extract_years_docstring64 :
  Binary64._extract_years_of_experience "5+ years of Python experience"
  = Binary64.Finite 5 /\
  Binary64._extract_years_of_experience "3.5 years software development"
  = Binary64.Finite (7 # 2) /\
  Binary64._extract_years_of_experience "Recent college graduate"
  = Binary64.Finite 0 /\
  Binary64.compute_experience_score
    "Software engineer with 3 years of experience"
    "Looking for 5+ years experience"
  = Binary64.Return (Binary64.round64 (6 # 10)) /\
  Binary64.compute_experience_score
    "Software engineer with 3 years of experience"
    "Looking for a software engineer"
  = Binary64.Return (Binary64.Finite 1).
Proof. vm_compute. tauto. Qed.

(** C8 fails in the code when the years overflow.  A count of 401 digits
    is read as plus infinity; for that text as resume and as job
    description the required years are above zero and the candidate has
    them, but the quotient of two infinities is NaN, [min] keeps the NaN,
    [max(0.0, NaN)] is 0.0, and the score is 0.0 where the docstring and
    the claim give 1.0. *)
Theorem experience_score_overflow :
  Binary64._extract_years_of_experience huge_years = Binary64.Infinity false /\
  Binary64.flt (Binary64.Finite 0)
    (Binary64._extract_years_of_experience huge_years) = true /\
  Binary64.fle (Binary64._extract_years_of_experience huge_years)
    (Binary64._extract_years_of_experience huge_years) = true /\
  Binary64.fdiv (Binary64.Infinity false) (Binary64.Infinity false)
  = Binary64.Return Binary64.NaN /\
  Binary64.compute_experience_score huge_years huge_years
  = Binary64.Return (Binary64.Finite 0).
Proof. vm_compute. tauto. Qed.

Module QuotientFacts.
Import Binary64 NearestFacts Float64Facts.

Lemma clamp_ge_one (x : float) :
  ratio_like x -> fle (Finite 1) x = true -> clamp x = Finite 1.
Proof.
  intros Hlike H1. rewrite (clamp_cases x Hlike).
  destruct (fle_not_nan _ _ H1) as [_ ->].
  destruct (flt (Finite 1) x) eqn:Hlt; [reflexivity|].
  destruct x as [q | [] |]; simpl in *; try done.
  apply negb_false_iff, Qle_bool_iff in Hlt. apply Qle_bool_iff in H1.
  destruct Hlike as [_ Hred]. assert (q == 1) as Hq by lra.
  rewrite <- Hred. now rewrite (Qred_complete q 1 Hq).
Qed.

(** The quotient by a number above zero grows with the dividend. *)
Lemma fdiv_mono (c1 c2 : float) (b : Q) :
  0 < b -> fle (Finite 0) c1 = true -> fle c1 c2 = true ->
  exists ratio1 ratio2,
    fdiv c1 (Finite b) = Return ratio1 /\
    fdiv c2 (Finite b) = Return ratio2 /\
    ratio_like ratio1 /\ ratio_like ratio2 /\
    fle ratio1 ratio2 = true /\
    (fle (Finite b) c2 = true -> fle (Finite 1) ratio2 = true).
Proof.
  intros Hb H1 H12.
  assert (flt (Finite 0) (Finite b) = true) as Hpos.
  { simpl. apply negb_true_iff.
    destruct (Qle_bool b 0) eqn:E; [|reflexivity].
    apply Qle_bool_iff in E. lra. }
  pose proof (fle_trans _ _ _ H1 H12) as H2.
  destruct (fdiv_years c1 (Finite b) H1 Hpos) as (r1 & D1 & L1 & N1 & V1).
  destruct (fdiv_years c2 (Finite b) H2 Hpos) as (r2 & D2 & L2 & N2 & V2).
  exists r1, r2. repeat (split; [assumption|]).
  assert (is_nan r1 = false) as Nn1.
  { destruct (is_nan r1); [|reflexivity]. now destruct (proj1 N1 eq_refl). }
  assert (is_nan r2 = false) as Nn2.
  { destruct (is_nan r2); [|reflexivity]. now destruct (proj1 N2 eq_refl). }
  destruct (nonneg_cases c1 H1) as [(a1 & -> & Ha1) | ->];
    destruct (nonneg_cases c2 H2) as [(a2 & -> & Ha2) | ->].
  - rewrite (V1 a1 b eq_refl eq_refl), (V2 a2 b eq_refl eq_refl).
    simpl in H12. apply Qle_bool_iff in H12. split.
    + apply round64_mono. apply Qmult_le_compat_r; [exact H12|].
      apply Qlt_le_weak, Qinv_lt_0_compat, Hb.
    + intros Hba. simpl in Hba. apply Qle_bool_iff in Hba.
      rewrite <- round64_one at 1.
      apply round64_mono. apply Qle_shift_div_l; [exact Hb | lra].
  - unfold fdiv in D2. cbn [is_zero] in D2.
    destruct (Qeq_bool b 0); [discriminate|]. injection D2 as <-.
    cbn [is_negative xorb].
    assert (Qle_bool 0 b = true) as -> by (apply Qle_bool_iff; lra).
    cbn [negb]. split; [|reflexivity].
    destruct r1 as [q | [] |]; simpl in *; done.
  - discriminate H12.
  - unfold fdiv in D1, D2. cbn [is_zero] in D1, D2.
    destruct (Qeq_bool b 0); [discriminate|].
    injection D1 as <-. injection D2 as <-.
    cbn [is_negative xorb].
    assert (Qle_bool 0 b = true) as -> by (apply Qle_bool_iff; lra).
    split; reflexivity.
Qed.

End QuotientFacts.

(** With years required that are above zero, the score does not drop when
    the candidate's years grow.  When the required years are a number,
    the score is exactly 1.0 as soon as the candidate has them; when they
    are infinite it is 0.0 for every candidate. *)
Theorem experience_score_monotone (resume1 resume2 jd_text : string) :
  let required := Binary64._extract_years_of_experience jd_text in
  let years1 := Binary64._extract_years_of_experience resume1 in
  let years2 := Binary64._extract_years_of_experience resume2 in
  Binary64.flt (Binary64.Finite 0) required = true ->
  Binary64.fle years1 years2 = true ->
  exists score1 score2,
    Binary64.compute_experience_score resume1 jd_text
    = Binary64.Return score1 /\
    Binary64.compute_experience_score resume2 jd_text
    = Binary64.Return score2 /\
    Binary64.fle score1 score2 = true /\
    (forall r, required = Binary64.Finite r ->
       Binary64.fle required years2 = true ->
       score2 = Binary64.Finite 1) /\
    (required = Binary64.Infinity false ->
     score1 = Binary64.Finite 0 /\ score2 = Binary64.Finite 0).
Proof.
  intros required years1 years2 Hpos H12.
  pose proof (Float64Facts.extract_years_nonneg64 resume1) as N1.
  pose proof (Float64Facts.extract_years_nonneg64 resume2) as N2.
  fold years1 in N1. fold years2 in N2.
  unfold Binary64.compute_experience_score.
  fold required years1 years2.
  rewrite (Float64Facts.flt_not_fle required Hpos).
  destruct required as [b | [] |]; simpl in Hpos; try discriminate.
  - apply negb_true_iff in Hpos.
    assert (0 < b) as Hb.
    { apply Qnot_le_lt. rewrite <- Qle_bool_iff. congruence. }
    destruct (QuotientFacts.fdiv_mono years1 years2 b Hb N1 H12)
      as (r1 & r2 & D1 & D2 & L1 & L2 & Hle & Hsat).
    rewrite D1, D2. simpl.
    exists (Float64Facts.clamp r1), (Float64Facts.clamp r2).
    split; [reflexivity|]. split; [reflexivity|].
    split; [now apply Float64Facts.clamp_mono|]. split; [|discriminate].
    intros r _ Hreq. apply QuotientFacts.clamp_ge_one; auto.
  - assert (forall c, Binary64.fle (Binary64.Finite 0) c = true ->
              exists ratio,
                Binary64.fdiv c (Binary64.Infinity false)
                = Binary64.Return ratio /\
                Float64Facts.clamp ratio = Binary64.Finite 0) as Hinf.
    { intros c Hc.
      destruct (Float64Facts.nonneg_cases c Hc) as [(a & -> & _) | ->];
        eexists; (split; [reflexivity|]); reflexivity. }
    destruct (Hinf years1 N1) as (r1 & D1 & C1).
    destruct (Hinf years2 N2) as (r2 & D2 & C2).
    rewrite D1, D2. simpl. fold (Float64Facts.clamp r1).
    fold (Float64Facts.clamp r2). rewrite C1, C2.
    exists (Binary64.Finite 0), (Binary64.Finite 0).
    repeat split; try reflexivity. discriminate.
Qed.

Lemma experience_score_monotone_witness :
  Binary64.flt (Binary64.Finite 0)
    (Binary64._extract_years_of_experience "Requires 5+ years") = true /\
  Binary64.fle (Binary64._extract_years_of_experience "3 years of Go")
    (Binary64._extract_years_of_experience "7.5 years of Go") = true /\
  exists score1 score2,
    Binary64.compute_experience_score "3 years of Go" "Requires 5+ years"
    = Binary64.Return score1 /\
    Binary64.compute_experience_score "7.5 years of Go" "Requires 5+ years"
    = Binary64.Return score2 /\
    Binary64.fle score1 score2 = true /\
    (forall r,
       Binary64._extract_years_of_experience "Requires 5+ years"
       = Binary64.Finite r ->
       Binary64.fle
         (Binary64._extract_years_of_experience "Requires 5+ years")
         (Binary64._extract_years_of_experience "7.5 years of Go") = true ->
       score2 = Binary64.Finite 1) /\
    (Binary64._extract_years_of_experience "Requires 5+ years"
     = Binary64.Infinity false ->
     score1 = Binary64.Finite 0 /\ score2 = Binary64.Finite 0).
Proof.
  split; [reflexivity|]. split; [reflexivity|].
  exact (experience_score_monotone "3 years of Go" "7.5 years of Go"
           "Requires 5+ years" eq_refl eq_refl).
Defined.

Module ProductFacts.
Import Binary64 NearestFacts Float64Facts.

(** *** Products and sums of numbers *)



Lemma py_round_2 (p : Q) :
  py_round (Finite p) 2 = round64 (round_half_even (p * 100) # 100).
Proof.
  unfold py_round. apply round64_proper.
  change (inject_Z (10 ^ Z.of_nat 2)) with 100.
  now rewrite (Qmake_Qdiv _ 100).
Qed.


End ProductFacts.


(** The example of the docstring. *)
Example compute_final_score_docstring64 :
  Binary64.compute_final_score (Binary64.round64 (85 # 100))
    (Binary64.round64 (75 # 100)) (Binary64.Finite 1)
  = Binary64.Finite (167 # 2).
Proof. vm_compute. reflexivity. Qed.

Module ArrayFacts.
Import Binary64 NearestFacts Float64Facts.

(** *** Arrays *)








Section WithCosine.
Variable cosine : list Q -> list Q -> Q.


End WithCosine.

End ArrayFacts.



(** The cases the specification names, and a score. *)
Example average_max_examples64 :
  let ok :=
    {| Binary64.shape64 := [1%nat; 2%nat];
       Binary64.data64 := [Binary64.Finite 1; Binary64.Finite 0] |} in
  Binary64.average_max_cosine_similarity dot
    {| Binary64.shape64 := [0%nat]; Binary64.data64 := [] |} ok
  = Binary64.Raise (Binary64.Invalid SourceEmpty) /\
  Binary64.average_max_cosine_similarity dot ok
    {| Binary64.shape64 := [1%nat; 0%nat]; Binary64.data64 := [] |}
  = Binary64.Raise (Binary64.Invalid TargetEmpty) /\
  Binary64.average_max_cosine_similarity dot
    {| Binary64.shape64 := [2%nat];
       Binary64.data64 := [Binary64.Finite 1; Binary64.Finite 0] |} ok
  = Binary64.Raise (Binary64.Invalid (SourceNot2D [2%nat])) /\
  Binary64.average_max_cosine_similarity dot ok
    {| Binary64.shape64 := [1%nat; 3%nat];
       Binary64.data64 :=
         [Binary64.Finite 1; Binary64.Finite 0; Binary64.Finite 0] |}
  = Binary64.Raise (Binary64.Invalid (DimensionMismatch 2 3)) /\
  Binary64.average_max_cosine_similarity dot
    {| Binary64.shape64 := [2%nat; 2%nat];
       Binary64.data64 :=
         [Binary64.Finite 1; Binary64.Finite 0;
          Binary64.Finite 0; Binary64.Finite 1] |}
    {| Binary64.shape64 := [2%nat; 2%nat];
       Binary64.data64 :=
         [Binary64.Finite (1 # 2); Binary64.Finite 0;
          Binary64.Finite 0; Binary64.Finite (1 # 5)] |}
  = Binary64.Return (Binary64.round64 (7 # 20)).
Proof. vm_compute. tauto. Qed.

Module FinalScoreFacts.
Import Binary64 NearestFacts Float64Facts.

Lemma round64_le (x y vx vy : Q) :
  round64 x = Finite vx -> round64 y = Finite vy -> x <= y -> vx <= vy.
Proof.
  intros Hx Hy Hxy. pose proof (round64_mono x y Hxy) as H.
  rewrite Hx, Hy in H. now apply Qle_bool_iff in H.
Qed.

(** A number between 0 and [2 ** k] stays there when rounded. *)
Lemma round64_bounded (k : Z) (x : Q) :
  (-1022 <= k <= 1023)%Z -> 0 <= x <= pow2 k ->
  exists v, round64 x = Finite v /\ 0 <= v <= pow2 k.
Proof.
  intros Hk [H0 Hx].
  destruct (round64_finite x k ltac:(lia)) as (v & Hv & Ev & _ & Hb & _).
  { rewrite Qabs_pos by exact H0. exact Hx. }
  exists v. split; [exact Hv|]. apply Qabs_Qle_condition in Hb.
  split; [|lra]. rewrite Ev. now apply nearest_nonneg.
Qed.

Lemma mul_unit (w x : Q) : 0 <= w <= 1 -> 0 <= x <= 1 -> 0 <= w * x <= 1.
Proof. intros Hw Hx. nra. Qed.

Lemma mul_mono (w x y : Q) : 0 <= w -> x <= y -> w * x <= w * y.
Proof. intros Hw Hxy. nra. Qed.

(** The final score on numbers between 0 and 1 grows with each of
    them. *)
Lemma final_score_mono (s k e s' k' e' : Q) :
  0 <= s -> s <= s' -> s' <= 1 ->
  0 <= k -> k <= k' -> k' <= 1 ->
  0 <= e -> e <= e' -> e' <= 1 ->
  exists value value',
    compute_final_score (Finite s) (Finite k) (Finite e) = Finite value /\
    compute_final_score (Finite s') (Finite k') (Finite e') = Finite value' /\
    value <= value'.
Proof.
  intros Hs0 Hss Hs1 Hk0 Hkk Hk1 He0 Hee He1. unfold compute_final_score.
  change SEMANTIC_SIMILARITY_WEIGHT
    with (Finite (5404319552844595 # 9007199254740992)).
  change SKILL_MATCH_WEIGHT
    with (Finite (5404319552844595 # 18014398509481984)).
  change EXPERIENCE_MATCH_WEIGHT
    with (Finite (3602879701896397 # 36028797018963968)).
  cbn [fmul fadd].
  assert (pow2 0 == 1) as P0 by reflexivity.
  assert (pow2 1 == 2) as P1 by reflexivity.
  assert (pow2 2 == 4) as P2 by reflexivity.
  assert (pow2 9 == 512) as P9 by reflexivity.
  assert (pow2 16 == 65536) as P16 by reflexivity.
  set (w6 := 5404319552844595 # 9007199254740992).
  set (w3 := 5404319552844595 # 18014398509481984).
  set (w1 := 3602879701896397 # 36028797018963968).
  assert (0 <= w6 <= 1) as Hw6 by (split; discriminate).
  assert (0 <= w3 <= 1) as Hw3 by (split; discriminate).
  assert (0 <= w1 <= 1) as Hw1 by (split; discriminate).
  destruct (round64_bounded 0 (w6 * s)) as (a & Ea & Ba);
    [lia | rewrite P0; apply mul_unit; lra|].
  destruct (round64_bounded 0 (w6 * s')) as (a' & Ea' & Ba');
    [lia | rewrite P0; apply mul_unit; lra|].
  destruct (round64_bounded 0 (w3 * k)) as (b & Eb & Bb);
    [lia | rewrite P0; apply mul_unit; lra|].
  destruct (round64_bounded 0 (w3 * k')) as (b' & Eb' & Bb');
    [lia | rewrite P0; apply mul_unit; lra|].
  destruct (round64_bounded 0 (w1 * e)) as (c & Ec & Bc);
    [lia | rewrite P0; apply mul_unit; lra|].
  destruct (round64_bounded 0 (w1 * e')) as (c' & Ec' & Bc');
    [lia | rewrite P0; apply mul_unit; lra|].
  pose proof (round64_le _ _ _ _ Ea Ea' (mul_mono w6 s s' (proj1 Hw6) Hss))
    as La.
  pose proof (round64_le _ _ _ _ Eb Eb' (mul_mono w3 k k' (proj1 Hw3) Hkk))
    as Lb.
  pose proof (round64_le _ _ _ _ Ec Ec' (mul_mono w1 e e' (proj1 Hw1) Hee))
    as Lc.
  rewrite P0 in Ba, Ba', Bb, Bb', Bc, Bc'.
  rewrite Ea, Ea', Eb, Eb', Ec, Ec'. cbn [fadd].
  destruct (round64_bounded 1 (a + b)) as (ab & Eab & Bab); [lia | lra|].
  destruct (round64_bounded 1 (a' + b')) as (ab' & Eab' & Bab'); [lia | lra|].
  pose proof (round64_le _ _ _ _ Eab Eab' ltac:(lra)) as Lab.
  rewrite Eab, Eab'. cbn [fadd].
  destruct (round64_bounded 2 (ab + c)) as (abc & Eabc & Babc); [lia | lra|].
  destruct (round64_bounded 2 (ab' + c'))
    as (abc' & Eabc' & Babc'); [lia | lra|].
  pose proof (round64_le _ _ _ _ Eabc Eabc' ltac:(lra)) as Labc.
  rewrite Eabc, Eabc'. cbn [fmul].
  destruct (round64_bounded 9 (abc * 100)) as (p & Ep & Bp); [lia | lra|].
  destruct (round64_bounded 9 (abc' * 100)) as (p' & Ep' & Bp'); [lia | lra|].
  pose proof (round64_le _ _ _ _ Ep Ep' ltac:(lra)) as Lp.
  rewrite Ep, Ep', !ProductFacts.py_round_2.
  pose proof (round_half_even_mono (p * 100) (p' * 100) ltac:(lra)) as Ln.
  pose proof (ScoreFacts.round_half_even_close (p * 100)) as Cn.
  pose proof (ScoreFacts.round_half_even_close (p' * 100)) as Cn'.
  apply Qabs_Qle_condition in Cn, Cn'.
  pose proof (round_half_even_mono (inject_Z 0) (p * 100)
                ltac:(change (inject_Z 0) with 0; lra)) as Ln0.
  rewrite (round_half_even_Z 0) in Ln0.
  set (n := round_half_even (p * 100)) in *.
  set (n' := round_half_even (p' * 100)) in *.
  assert (forall z : Z, z # 100 == inject_Z z * (1 # 100)) as Hq.
  { intros z. rewrite (Qmake_Qdiv z 100). unfold Qdiv. reflexivity. }
  assert (0 <= inject_Z n) as Hn0
    by (change 0 with (inject_Z 0); now rewrite <- Zle_Qle).
  assert (inject_Z n <= inject_Z n') as Hnn by now rewrite <- Zle_Qle.
  destruct (round64_bounded 16 (n # 100)) as (v & Ev & Bv);
    [lia | rewrite (Hq n); lra|].
  destruct (round64_bounded 16 (n' # 100)) as (v' & Ev' & Bv');
    [lia | rewrite (Hq n'); lra|].
  exists v, v'. split; [exact Ev|]. split; [exact Ev'|].
  apply (round64_le _ _ _ _ Ev Ev'). rewrite (Hq n), (Hq n'). lra.
Qed.

End FinalScoreFacts.

(** In binary64, for signals between 0 and 1: the final score is a
    number between 0 and 100, and it does not drop when a signal grows. *)
Theorem final_score_range64 (s k e s' k' e' : Q) :
  0 <= s <= s' -> s' <= 1 -> 0 <= k <= k' -> k' <= 1 ->
  0 <= e <= e' -> e' <= 1 ->
  exists value value',
    Binary64.compute_final_score (Binary64.Finite s) (Binary64.Finite k)
      (Binary64.Finite e) = Binary64.Finite value /\
    Binary64.compute_final_score (Binary64.Finite s') (Binary64.Finite k')
      (Binary64.Finite e') = Binary64.Finite value' /\
    0 <= value /\ value <= value' /\ value' <= 100.
Proof.
  intros [Hs0 Hss] Hs1 [Hk0 Hkk] Hk1 [He0 Hee] He1.
  destruct (FinalScoreFacts.final_score_mono s k e s' k' e')
    as (v & v' & Ev & Ev' & Hvv); try assumption.
  destruct (FinalScoreFacts.final_score_mono 0 0 0 s k e)
    as (z & v0 & Ez & Ev0 & Hz); try assumption; try apply Qle_refl;
    try lra.
  destruct (FinalScoreFacts.final_score_mono s' k' e' 1 1 1)
    as (v1 & h & Ev1 & Eh & Hh); try assumption; try apply Qle_refl;
    try lra.
  rewrite Ev in Ev0. injection Ev0 as <-.
  rewrite Ev' in Ev1. injection Ev1 as <-.
  assert (Binary64.compute_final_score (Binary64.Finite 0)
            (Binary64.Finite 0) (Binary64.Finite 0) = Binary64.Finite 0)
    as E0 by reflexivity.
  assert (Binary64.compute_final_score (Binary64.Finite 1)
            (Binary64.Finite 1) (Binary64.Finite 1) = Binary64.Finite 100)
    as E1 by reflexivity.
  rewrite E0 in Ez. injection Ez as <-.
  rewrite E1 in Eh. injection Eh as <-.
  exists v, v'. auto.
Qed.

Lemma final_score_range64_witness :
  0 <= 1 # 2 <= 3 # 4 /\ 3 # 4 <= 1 /\ 0 <= 0 <= 1 /\ 1 <= 1 /\
  0 <= 1 # 3 <= 1 # 3 /\ 1 # 3 <= 1 /\
  exists value value',
    Binary64.compute_final_score (Binary64.Finite (1 # 2)) (Binary64.Finite 0)
      (Binary64.Finite (1 # 3)) = Binary64.Finite value /\
    Binary64.compute_final_score (Binary64.Finite (3 # 4)) (Binary64.Finite 1)
      (Binary64.Finite (1 # 3)) = Binary64.Finite value' /\
    0 <= value /\ value <= value' /\ value' <= 100.
Proof.
  assert (0 <= 1 # 2 <= 3 # 4) as H1 by (split; discriminate).
  assert (3 # 4 <= 1) as H2 by discriminate.
  assert (0 <= 0 <= 1) as H3 by (split; discriminate).
  assert (1 <= 1) as H4 by discriminate.
  assert (0 <= 1 # 3 <= 1 # 3) as H5 by (split; discriminate).
  assert (1 # 3 <= 1) as H6 by discriminate.
  split; [exact H1|]. split; [exact H2|]. split; [exact H3|].
  split; [exact H4|]. split; [exact H5|]. split; [exact H6|].
  exact (final_score_range64 (1 # 2) 0 (1 # 3) (3 # 4) 1 (1 # 3)
           H1 H2 H3 H4 H5 H6).
Defined.

Module ContainFacts.
Import Text TextFacts.

Lemma prefix_split (needle hay : string) :
  String.prefix needle hay = true -> exists post, hay = needle +:+ post.
Proof.
  revert hay. induction needle as [|c needle IH]; intros hay.
  - intros _. now exists hay.
  - destruct hay as [|d hay]; simpl; [done|].
    destruct (ascii_dec c d) as [<- | ]; [|done].
    intros H. destruct (IH hay H) as [post ->]. now exists post.
Qed.

Lemma prefix_intro (needle post : string) :
  String.prefix needle (needle +:+ post) = true.
Proof.
  induction needle as [|c needle IH]; [now destruct post|].
  rewrite RegexFacts.app_cons. simpl. now destruct (ascii_dec c c).
Qed.

Lemma contains_split (needle hay : string) :
  contains needle hay = true ->
  exists pre post, hay = pre +:+ needle +:+ post.
Proof.
  induction hay as [|d hay IH].
  - destruct needle as [|c needle]; [|done]. intros _. now exists "", "".
  - change (contains needle (String d hay))
      with (String.prefix needle (String d hay) || contains needle hay).
    intros [Hp | H]%orb_true_iff.
    + destruct (prefix_split _ _ Hp) as [post ->]. now exists "", post.
    + destruct (IH H) as (pre & post & ->). now exists (String d pre), post.
Qed.

Lemma contains_intro (pre needle post : string) :
  contains needle (pre +:+ needle +:+ post) = true.
Proof.
  induction pre as [|d pre IH].
  - rewrite RegexFacts.app_nil_l.
    pose proof (prefix_intro needle post) as Hp.
    destruct (needle +:+ post) as [|c rest].
    + destruct needle; [reflexivity | discriminate Hp].
    + change (contains needle (String c rest))
        with (String.prefix needle (String c rest) || contains needle rest).
      now rewrite Hp.
  - rewrite RegexFacts.app_cons.
    change (contains needle (String d (pre +:+ needle +:+ post)))
      with (String.prefix needle (String d (pre +:+ needle +:+ post))
            || contains needle (pre +:+ needle +:+ post)).
    rewrite IH. apply orb_true_r.
Qed.

Lemma contains_trans (a b c : string) :
  contains a b = true -> contains b c = true -> contains a c = true.
Proof.
  intros [pre [post ->]]%contains_split [pre' [post' ->]]%contains_split.
  assert (pre' +:+ (pre +:+ a +:+ post) +:+ post'
          = (pre' +:+ pre) +:+ a +:+ (post +:+ post')) as ->
    by now rewrite !RegexFacts.app_assoc.
  apply contains_intro.
Qed.

End ContainFacts.

(** The operations above give what [SFadd], [SFmul] and [SFdiv] of the
    Standard Library give at precision 53 and maximal exponent 1024: on
    0.6, 0.3, 0.1 and 0.85 as the code multiplies and adds them, on a
    quotient, on an overflow and on an underflow to a subnormal number. *)
Example agrees_with_SpecFloat :
  let b64 := S754_finite false in
  let x06 := b64 5404319552844595%positive (-53)%Z in
  let x03 := b64 5404319552844595%positive (-54)%Z in
  let x01 := b64 7205759403792794%positive (-56)%Z in
  let x085 := b64 7656119366529843%positive (-53)%Z in
  let largest := b64 9007199254740991%positive 971%Z in
  let smallest := b64 4503599627370496%positive (-1074)%Z in
  of_spec x06 = Binary64.round64 (6 # 10) /\
  of_spec x03 = Binary64.round64 (3 # 10) /\
  of_spec x01 = Binary64.round64 (1 # 10) /\
  of_spec (SFmul 53 1024 x06 x085)
  = Binary64.fmul (of_spec x06) (of_spec x085) /\
  of_spec (SFadd 53 1024 x06 x03)
  = Binary64.fadd (of_spec x06) (of_spec x03) /\
  of_spec (SFadd 53 1024 (SFadd 53 1024 x06 x03) x01)
  = Binary64.fadd (Binary64.fadd (of_spec x06) (of_spec x03)) (of_spec x01) /\
  Binary64.Return (of_spec (SFdiv 53 1024 x01 x03))
  = Binary64.fdiv (of_spec x01) (of_spec x03) /\
  of_spec (SFmul 53 1024 largest x085)
  = Binary64.fmul (of_spec largest) (of_spec x085) /\
  of_spec (SFadd 53 1024 largest largest)
  = Binary64.fadd (of_spec largest) (of_spec largest) /\
  of_spec (SFmul 53 1024 smallest x01)
  = Binary64.fmul (of_spec smallest) (of_spec x01) /\
  Binary64.Return (of_spec (SFdiv 53 1024 smallest largest))
  = Binary64.fdiv (of_spec smallest) (of_spec largest).
Proof. vm_compute. repeat split. Qed.

(** C7.  The code at the failing input, an empty resume against the job
    description "kubernetes": two skills are reported missing, because
    the one-letter vocabulary entry "r" is a substring of "kubernetes".
    The same holds of every job description that mentions "kubernetes":
    "r" is among the missing skills, so the missing skills are never
    ["kubernetes"] alone. *)
Theorem kubernetes_alone_missing_skills :
  match_skills "" "kubernetes" = ([], ["kubernetes"; "r"], 0 # 2) /\
  (forall jd_text,
     Text.contains "kubernetes" (Text.lower jd_text) = true ->
     let '(matched, missing, _) := match_skills "" jd_text in
     matched = [] /\ "kubernetes" ∈ missing /\ "r" ∈ missing /\
     missing <> ["kubernetes"]) /\
  ~ (forall jd_text,
       jd_text <> "" ->
       Text.contains "kubernetes" (Text.lower jd_text) = true ->
       let '(matched, missing, _) := match_skills "" jd_text in
       matched = [] /\ missing = ["kubernetes"]).
Proof.
  assert (match_skills "" "kubernetes" = ([], ["kubernetes"; "r"], 0 # 2))
    as Heq by (vm_compute; reflexivity).
  split; [exact Heq|]. split.
  - intros jd_text Hk.
    assert ("kubernetes" ∈ extract_skills jd_text) as Hin.
    { apply EmptyResumeFacts.mentioned_skill_extracted;
        [apply SkillFacts.elem_of_vocabulary | | | exact Hk]; reflexivity. }
    assert ("r" ∈ extract_skills jd_text) as Hr.
    { apply EmptyResumeFacts.mentioned_skill_extracted;
        [apply SkillFacts.elem_of_vocabulary | | |]; try reflexivity.
      now apply (ContainFacts.contains_trans "r" "kubernetes"). }
    rewrite EmptyResumeFacts.match_skills_empty_resume
      by (intros Hempty; rewrite Hempty in Hin; now apply elem_of_empty in Hin).
    split; [reflexivity|].
    apply SkillFacts.elem_of_sorted in Hin, Hr.
    split; [exact Hin|]. split; [exact Hr|].
    intros Hone. rewrite Hone in Hr.
    apply elem_of_cons in Hr as [Hr | Hr]; [discriminate Hr|].
    now apply elem_of_nil in Hr.
  - intros H. specialize (H "kubernetes" ltac:(discriminate) eq_refl).
    rewrite Heq in H. destruct H as [_ H]. discriminate H.
Qed.

Module EmptyResumeFacts64.
Import Binary64 Float64Facts.

Lemma experience_score_empty_resume (jd_text : string) :
  compute_experience_score "" jd_text
  = Return (if fle (_extract_years_of_experience jd_text) (Finite 0)
            then Finite 1 else Finite 0).
Proof.
  unfold compute_experience_score.
  destruct (fle (_extract_years_of_experience jd_text) (Finite 0)) eqn:Hr;
    [reflexivity|].
  pose proof (years_positive jd_text Hr) as Hpos.
  change (_extract_years_of_experience "") with (Finite 0).
  destruct (_extract_years_of_experience jd_text) as [b | [] |];
    simpl in Hpos; try discriminate; [|reflexivity].
  unfold fdiv. cbn [is_zero].
  destruct (Qeq_bool b 0) eqn:Hz.
  - apply Qeq_bool_iff in Hz. apply negb_true_iff in Hpos.
    assert (b <= 0) as H%Qle_bool_iff by lra. congruence.
  - rewrite (round64_proper (0 / b) 0) by (unfold Qdiv; ring).
    reflexivity.
Qed.

End EmptyResumeFacts64.

(** The empty resume.  No skill is matched, the missing skills are all
    the skills of the job description in ascending order, and the overlap
    ratio is 0 when there is one and 1.0 when there is none; the
    experience score is 1.0 when the years of the job description are at
    most zero and 0.0 otherwise. *)
Theorem empty_resume_scores (jd_text : string) :
  let '(matched, missing, overlap_ratio) := match_skills "" jd_text in
  matched = [] /\
  missing = sorted (extract_skills jd_text) /\
  StronglySorted Text.lt missing /\
  (extract_skills jd_text <> ∅ -> overlap_ratio == 0) /\
  (extract_skills jd_text = ∅ -> overlap_ratio == 1) /\
  Binary64.compute_experience_score "" jd_text
  = Binary64.Return
      (if Binary64.fle (Binary64._extract_years_of_experience jd_text)
            (Binary64.Finite 0)
       then Binary64.Finite 1 else Binary64.Finite 0).
Proof.
  pose proof (EmptyResumeFacts64.experience_score_empty_resume jd_text) as He.
  destruct (decide (extract_skills jd_text = ∅)) as [Hempty | Hne].
  - unfold match_skills. rewrite Hempty. simpl.
    split; [reflexivity|]. split; [reflexivity|].
    split; [constructor|]. split; [done|]. split; [reflexivity | exact He].
  - rewrite (EmptyResumeFacts.match_skills_empty_resume jd_text Hne).
    split; [reflexivity|]. split; [reflexivity|].
    split; [apply SkillFacts.sorted_ascending|].
    split; [|split; [done | exact He]].
    intros _.
    assert ((∅ : gset string) ∩ extract_skills jd_text = ∅) as ->.
    { apply set_eq. intros x. rewrite elem_of_intersection, elem_of_empty.
      tauto. }
    unfold len_Q. rewrite size_empty. unfold Qdiv. ring.
Qed.
